(** * vc-500w_autocut: the relay of [proxy.py], embedded and verified

    [proxy.py] is a TCP relay between a print client and a label printer.
    Every chunk that crosses a session goes through [modify_xml], which
    inserts a cut directive before the closing tag of a job descriptor.

    The development follows the source file top-down:
    - byte strings and the two [bytes] operations the rewriter uses
      ([find] and slicing),
    - [modify_xml],
    - the socket primitives and the session ([client_thread]), as a state
      and error monad over an explicit world,
    - the listener and the signal handler.

    The environment (what [select] reports, when a termination signal is
    delivered, what the peers send) is an explicit script held in the
    world; transport errors (resets, refused connections) are not
    modelled. *)

From Stdlib Require Import ZArith List Bool Lia.
From Stdlib.Strings Require String Byte.
From Stdlib.Init Require Import Byte.
Import String.StringSyntax.
Import ListNotations.

Local Open Scope Z_scope.
Delimit Scope string_scope with string.

(* ================================================================== *)
(** ** Configuration constants (proxy.py, lines 33-35) *)

Definition MAX_DATA_IMG : Z := 20000000.
Definition MAX_DATA_XML : Z := 50000.

(* ================================================================== *)
(** ** Byte strings *)

Definition bytes := list byte.

(** [b "..."] is the Python literal [b'...']. *)
Definition b (s : String.string) : bytes := String.list_byte_of_string s.
Arguments b s%_string.

(** Python's [len]. *)
Definition len (data : bytes) : Z := Z.of_nat (length data).

(** [data.startswith(prefix)]. *)
Fixpoint startswith (data prefix : bytes) {struct prefix} : bool :=
  match prefix, data with
  | [], _ => true
  | _ :: _, [] => false
  | p :: prefix', d :: data' => Byte.eqb d p && startswith data' prefix'
  end.

(** [data.find(sub)]: the lowest index at which [sub] starts, [-1] when
    there is none.  [find_from i] scans a suffix that starts at index [i]. *)
Fixpoint find_from (i : Z) (data sub : bytes) : Z :=
  if startswith data sub then i
  else match data with
       | [] => -1
       | _ :: data' => find_from (i + 1) data' sub
       end.

Definition bytes_find (data sub : bytes) : Z := find_from 0 data sub.

(** Slice bounds as Python resolves them: a negative bound counts from the
    end, and the result is clamped to [0 .. len data]. *)
Definition slice_bound (data : bytes) (i : Z) : nat :=
  Z.to_nat (Z.min (len data) (if i <? 0 then Z.max 0 (len data + i) else i)).

(** [data[:i]] and [data[i:]]. *)
Definition slice_to (data : bytes) (i : Z) : bytes :=
  firstn (slice_bound data i) data.
Definition slice_from (data : bytes) (i : Z) : bytes :=
  skipn (slice_bound data i) data.

(* ================================================================== *)
(** ** The payload rewriter (proxy.py, lines 67-103) *)

(** The closing marker and the injected line. *)
Definition END_TAG : bytes := b "</print>".
Definition NEW_LINE : bytes := b "<cutmode>full</cutmode>" ++ [x0a].

(** What [modify_xml] prints. *)
Inductive log_line : Type :=
| Picture_received
| XML_content (data : bytes)
| XML_modified (data : bytes).

Section Rewriter.

(** The search the rewriter calls on its argument; [modify_xml] below
    instantiates it with [bytes_find]. *)
Variable find : bytes -> bytes -> Z.

Definition modify_xml_with (data : bytes) : bytes * list log_line :=
  (* Don't log or process picture content. *)
  if len data >? MAX_DATA_XML then (data, [Picture_received])
  else
    (* Find </print> position. *)
    let end_tag_pos := find data END_TAG in
    (* No </print> in xml. *)
    if end_tag_pos =? -1 then (data, [XML_content data])
    else
      (* Add new line with cut mode before </print>. *)
      let new_data :=
        slice_to data end_tag_pos ++ NEW_LINE ++ slice_from data end_tag_pos in
      (new_data, [XML_content data; XML_modified new_data]).

End Rewriter.

Definition modify_xml (data : bytes) : bytes :=
  fst (modify_xml_with bytes_find data).

Definition modify_xml_log (data : bytes) : list log_line :=
  snd (modify_xml_with bytes_find data).

(* ================================================================== *)
(** ** Computations: state, exceptions, blocking

    A thread of [proxy.py] is a computation over a world [W].  It returns,
    raises a Python exception, or blocks for ever in a [select] that the
    environment never completes.  Loops carry a bound on their iterations;
    [OutOfFuel] is the result of a bound that was too small and is shown
    unreachable for the bounds the threads use. *)

Inductive exn : Type :=
| TypeError
| SystemExit (code : Z).

Inductive result (W A : Type) : Type :=
| Ok (a : A) (w : W)
| Raised (e : exn) (w : W)
| Hang (w : W)
| OutOfFuel.

Arguments Ok {W A} a w.
Arguments Raised {W A} e w.
Arguments Hang {W A} w.
Arguments OutOfFuel {W A}.

Definition M (W A : Type) : Type := W -> result W A.

Definition ret {W A} (a : A) : M W A := fun w => Ok a w.

Definition bind {W A B} (m : M W A) (k : A -> M W B) : M W B :=
  fun w =>
    match m w with
    | Ok a w' => k a w'
    | Raised e w' => Raised e w'
    | Hang w' => Hang w'
    | OutOfFuel => OutOfFuel
    end.

Definition raise {W A} (e : exn) : M W A := fun w => Raised e w.

Notation "x <- m ;; k" := (bind m (fun x => k))
  (at level 61, m at next level, right associativity).
Notation "m ;;; k" := (bind m (fun _ => k))
  (at level 61, right associativity).

(** [try: body finally: cleanup], which is what a [with] statement comes
    to: [cleanup] runs when [body] returns and when it raises, and the
    result or the exception of [body] goes on. *)
Definition finally {W A} (body : M W A) (cleanup : M W unit) : M W A :=
  fun w =>
    match body w with
    | Ok a w' => (cleanup ;;; ret a) w'
    | Raised e w' => (cleanup ;;; raise e) w'
    | Hang w' => Hang w'
    | OutOfFuel => OutOfFuel
    end.

(** The world a computation ends in, when it ends in one. *)
Definition final_world {W A} (r : result W A) : option W :=
  match r with
  | Ok _ w | Raised _ w | Hang w => Some w
  | OutOfFuel => None
  end.

(** [for x in v] over a value that is a list or [None]: iterating [None]
    raises [TypeError]. *)
Definition iter {W A} (v : option (list A)) : M W (list A) :=
  match v with
  | Some l => ret l
  | None => raise TypeError
  end.

(** [sys.exit(code)]. *)
Definition sys_exit {W A} (code : Z) : M W A := raise (SystemExit code).

(* ================================================================== *)
(** ** The readability multiplexer (proxy.py, lines 163-186)

    One [poll] is the outcome of one call of [select]: which sockets it
    reports readable, and whether a termination signal set the stop event
    while the call was waiting. *)

Section Multiplexer.

Context {Sock : Type}.

Record poll : Type := { ready : Sock -> bool; sigterm : bool }.

(** What a call of [socket_wait_readable] comes to: the Python value it
    returns (a list, or [None] when it falls out of its loop), or no
    return at all when the script of polls runs out first. *)
Inductive waited : Type :=
| Returned (v : option (list Sock))
| Polls_forever.

Fixpoint socket_wait_readable (socket_list : list Sock) (stop : bool)
         (env : list poll) : waited * bool * list poll :=
  if stop then (Returned None, stop, env)
  else
    match env with
    | [] => (Polls_forever, stop, env)
    | p :: env' =>
        let readable := filter (ready p) socket_list in
        let stop' := stop || sigterm p in
        match readable with
        | _ :: _ => (Returned (Some readable), stop', env')
        | [] => socket_wait_readable socket_list stop' env'
        end
    end.

End Multiplexer.

Arguments poll Sock : clear implicits.

(* ================================================================== *)
(** ** Sockets of a session *)

Module Session.

Inductive sock : Type := client_socket | printer_socket.

(** [a is b]. *)
Definition sock_is (a b : sock) : bool :=
  match a, b with
  | client_socket, client_socket | printer_socket, printer_socket => true
  | _, _ => false
  end.

(** The system calls of a session and what it prints, in program order. *)
Inductive event : Type :=
| Connect
| Recv (s : sock) (max_bytes : Z) (data : bytes)
| Sendall (s : sock) (data : bytes)
| Shutdown_WR (s : sock)
| Close (s : sock)
| Print (l : log_line).

(** One connection: the segments its peer still delivers, in order (after
    the last one the peer has closed: end-of-stream), and whether this side
    has shut its write half or closed the socket. *)
Record conn : Type :=
  { rx : list bytes; shut_wr : bool; closed : bool }.

Record world : Type :=
  { stop_event : bool;
    env : list (poll sock);
    client : conn;
    printer : conn;
    trace : list event }.

Definition conn_of (s : sock) (w : world) : conn :=
  match s with client_socket => client w | printer_socket => printer w end.

Definition set_conn (s : sock) (c : conn) (w : world) : world :=
  match s with
  | client_socket =>
      {| stop_event := stop_event w; env := env w; client := c;
         printer := printer w; trace := trace w |}
  | printer_socket =>
      {| stop_event := stop_event w; env := env w; client := client w;
         printer := c; trace := trace w |}
  end.

Definition log (e : event) (w : world) : world :=
  {| stop_event := stop_event w; env := env w; client := client w;
     printer := printer w; trace := trace w ++ [e] |}.

Definition emit (e : event) : M world unit := fun w => Ok tt (log e w).

(** [print] of each line of a list. *)
Fixpoint print_all (ls : list log_line) : M world unit :=
  match ls with
  | [] => ret tt
  | l :: ls' => emit (Print l) ;;; print_all ls'
  end.

(** [stop_event.is_set()]. *)
Definition is_set : M world bool := fun w => Ok (stop_event w) w.

(** [stop_event.wait(timeout)]: a bounded sleep that a set event cuts
    short; the event itself is left as it is. *)
Definition stop_event_wait : M world unit := ret tt.

(** [socket_wait_readable] run on the world's stop event and script. *)
Definition wait_readable (socket_list : list sock)
  : M world (option (list sock)) :=
  fun w =>
    match socket_wait_readable socket_list (stop_event w) (env w) with
    | (r, stop', env') =>
        let w' := {| stop_event := stop'; env := env'; client := client w;
                     printer := printer w; trace := trace w |} in
        match r with
        | Returned v => Ok v w'
        | Polls_forever => Hang w'
        end
    end.

(** The first [n] bytes of a segment, and the rest of it. *)
Fixpoint split_at (n : Z) (seg : bytes) : bytes * bytes :=
  match seg with
  | [] => ([], [])
  | x :: seg' =>
      if n <=? 0 then ([], seg)
      else let (data, rest) := split_at (n - 1) seg' in (x :: data, rest)
  end.

(** [recv(max_bytes)] on a queue of segments: at most [max_bytes] bytes of
    the first segment that carries data, the rest of which stays first in
    the queue; the empty byte string once the queue is exhausted. *)
Fixpoint recv_from (max_bytes : Z) (q : list bytes) : bytes * list bytes :=
  match q with
  | [] => ([], [])
  | [] :: q' => recv_from max_bytes q'
  | seg :: q' =>
      let (data, rest) := split_at max_bytes seg in
      (data,
       match rest with
       | [] => q'
       | _ :: _ => rest :: q'
       end)
  end.

(** [sock.recv(max_bytes)]. *)
Definition sock_recv (s : sock) (max_bytes : Z) : M world bytes :=
  fun w =>
    let c := conn_of s w in
    let (data, q') := recv_from max_bytes (rx c) in
    Ok data
       (log (Recv s max_bytes data)
            (set_conn s {| rx := q'; shut_wr := shut_wr c;
                           closed := closed c |} w)).

(** [sock.shutdown(socket.SHUT_WR)] and [sock.close()]. *)
Definition sock_shutdown_wr (s : sock) : M world unit :=
  fun w =>
    let c := conn_of s w in
    Ok tt (log (Shutdown_WR s)
               (set_conn s {| rx := rx c; shut_wr := true;
                              closed := closed c |} w)).

Definition sock_close (s : sock) : M world unit :=
  fun w =>
    let c := conn_of s w in
    Ok tt (log (Close s)
               (set_conn s {| rx := rx c; shut_wr := shut_wr c;
                              closed := true |} w)).

(** The [with sock:] statement: the socket is closed when the block is
    left, whether it returns or raises. *)
Definition with_socket {A} (s : sock) (body : M world A) : M world A :=
  finally body (sock_close s).

(* ------------------------------------------------------------------ *)
(** *** socket_read, socket_write, socket_close (lines 106-160) *)

Definition socket_read (s : sock) (max_bytes : Z) : M world bytes :=
  stop_event_wait ;;;
  sock_recv s max_bytes.

Definition socket_write (s : sock) (data : bytes) : M world unit :=
  emit (Sendall s data).

(** [not data]. *)
Definition is_empty (data : bytes) : bool :=
  match data with [] => true | _ :: _ => false end.

(** The loop [while True: data = recv(1024); if not data: break]. *)
Fixpoint wait_for_ack (fuel : nat) (s : sock) : M world unit :=
  match fuel with
  | O => fun _ => OutOfFuel
  | S fuel' =>
      data <- sock_recv s 1024 ;;
      if is_empty data then ret tt else wait_for_ack fuel' s
  end.

(** The bytes a connection still has to deliver. *)
Definition pending (s : sock) (w : world) : nat :=
  length (concat (rx (conn_of s w))).

Definition socket_close (close_socket : sock) : M world unit :=
  (* Send FIN signal to remote host. *)
  sock_shutdown_wr close_socket ;;;
  (* Wait for ACK: every read takes at least one pending byte, and one
     more read returns the empty string. *)
  (fun w => wait_for_ack (S (pending close_socket w)) close_socket w) ;;;
  (* Close the socket. *)
  sock_close close_socket.

(* ------------------------------------------------------------------ *)
(** *** client_thread (lines 189-250) *)

(** The body of [for sock in readable:]; the value is [exit_flag]. *)
Fixpoint for_readable (readable : list sock) : M world bool :=
  match readable with
  | [] => ret false
  | sock :: rest =>
      (* Determine maximum bytes to read based on the socket type. *)
      let max_bytes :=
        if sock_is sock client_socket then MAX_DATA_IMG else MAX_DATA_XML in
      (* Read data from the socket. *)
      data <- socket_read sock max_bytes ;;
      (* Received FIN signal, set exit flag. *)
      if is_empty data then ret true
      else
        (* Modify XML data. *)
        print_all (modify_xml_log data) ;;;
        let data := modify_xml data in
        (* Determine destination socket and write data to it. *)
        let sock_dst :=
          if sock_is sock client_socket then printer_socket
          else client_socket in
        socket_write sock_dst data ;;;
        for_readable rest
  end.

(** [while not stop_event.is_set() and not exit_flag: ...]. *)
Fixpoint forwarding (fuel : nat) (exit_flag : bool) : M world unit :=
  match fuel with
  | O => fun _ => OutOfFuel
  | S fuel' =>
      stop <- is_set ;;
      if negb stop && negb exit_flag then
        (* Wait for either socket to become readable. *)
        readable <- wait_readable [client_socket; printer_socket] ;;
        (* Process each readable socket. *)
        socks <- iter readable ;;
        exit_now <- for_readable socks ;;
        forwarding fuel' (exit_flag || exit_now)
      else ret tt
  end.

(** The loop as [client_thread] enters it, with [exit_flag = False]: every
    turn that does not leave the loop takes a poll of the script, so one
    turn more than there are polls is bound enough. *)
Definition exchange : M world unit :=
  fun w => forwarding (S (length (env w))) false w.

Definition client_thread : M world unit :=
  with_socket client_socket
    (with_socket printer_socket
       ((* Open a new socket for the printer. *)
        emit Connect ;;;
        (* Exchange data between client and printer sockets. *)
        exchange ;;;
        (* Close printer socket gracefully. *)
        socket_close printer_socket) ;;;
     (* Close client socket gracefully. *)
     socket_close client_socket).

End Session.

(* ================================================================== *)
(** ** The listener and the signal handler *)

Module Listener.

(** The accepting socket is the only socket the listener waits on. *)
Inductive sock : Type := listener.

(** Threads are named by the order in which the listener starts them. *)
Definition thread := nat.

Inductive event : Type :=
| Listen
| Is_set (v : bool)
| Accept
| Start (t : thread)
| Join (t : thread)
| Close_listener.

(** The listener's world.  [finishing] is the environment's account of
    the sessions: its next entry names the client threads that have ended
    since the listener last looked.  [started] counts the threads started
    so far and [terminated] lists those that have ended. *)
Record world : Type :=
  { stop_event : bool;
    env : list (poll sock);
    finishing : list (list thread);
    started : nat;
    terminated : list thread;
    trace : list event }.

Definition log (e : event) (w : world) : world :=
  {| stop_event := stop_event w; env := env w; finishing := finishing w;
     started := started w; terminated := terminated w;
     trace := trace w ++ [e] |}.

Definition emit (e : event) : M world unit := fun w => Ok tt (log e w).

(** [stop_event.set()]. *)
Definition Event_set : M world unit :=
  fun w =>
    Ok tt {| stop_event := true; env := env w; finishing := finishing w;
             started := started w; terminated := terminated w;
             trace := trace w |}.

(** [stop_event.is_set()], with the answer recorded. *)
Definition is_set : M world bool :=
  fun w => Ok (stop_event w) (log (Is_set (stop_event w)) w).

Definition wait_readable (socket_list : list sock)
  : M world (option (list sock)) :=
  fun w =>
    match socket_wait_readable socket_list (stop_event w) (env w) with
    | (r, stop', env') =>
        let w' := {| stop_event := stop'; env := env';
                     finishing := finishing w; started := started w;
                     terminated := terminated w; trace := trace w |} in
        match r with
        | Returned v => Ok v w'
        | Polls_forever => Hang w'
        end
    end.

(** [threading.Thread(target=client_thread, ...)] and [thread.start()]. *)
Definition start_thread : M world thread :=
  fun w =>
    let t := started w in
    Ok t (log (Start t)
              {| stop_event := stop_event w; env := env w;
                 finishing := finishing w; started := S t;
                 terminated := terminated w; trace := trace w |}).

Definition has_terminated (t : thread) (w : world) : bool :=
  existsb (Nat.eqb t) (terminated w).

(** The sessions run on their own: the threads named by the next entry of
    [finishing], of those already started, have ended by now. *)
Definition sessions_progress : M world unit :=
  fun w =>
    match finishing w with
    | [] => Ok tt w
    | ended :: later =>
        Ok tt {| stop_event := stop_event w; env := env w;
                 finishing := later; started := started w;
                 terminated :=
                   terminated w ++ filter (fun t => t <? started w)%nat ended;
                 trace := trace w |}
    end.

(** [thread.is_alive()]. *)
Definition is_alive (t : thread) : M world bool :=
  fun w => Ok (negb (has_terminated t w)) w.

(** [thread.join()]: returns once the thread has ended. *)
Definition join (t : thread) : M world unit :=
  fun w =>
    Ok tt (log (Join t)
               {| stop_event := stop_event w; env := env w;
                  finishing := finishing w; started := started w;
                  terminated :=
                    if has_terminated t w then terminated w
                    else terminated w ++ [t];
                  trace := trace w |}).

(** [[thread for thread in l if thread.is_alive()]]. *)
Fixpoint alive_only (l : list thread) : M world (list thread) :=
  match l with
  | [] => ret []
  | t :: l' =>
      a <- is_alive t ;;
      rest <- alive_only l' ;;
      ret (if a then t :: rest else rest)
  end.

(** [for thread in l: thread.join()]. *)
Fixpoint join_all (l : list thread) : M world unit :=
  match l with
  | [] => ret tt
  | t :: l' => join t ;;; join_all l'
  end.

(** The [with socket.socket(...) as listener:] statement. *)
Definition with_listener {A} (body : M world A) : M world A :=
  finally body (emit Close_listener).

(* ------------------------------------------------------------------ *)
(** *** listener_thread (lines 253-305) *)

(** [while not stop_event.is_set(): ...]; the value is the list of client
    threads the loop leaves. *)
Fixpoint accept_loop (fuel : nat) (client_thread_list : list thread)
  : M world (list thread) :=
  match fuel with
  | O => fun _ => OutOfFuel
  | S fuel' =>
      stop <- is_set ;;
      if stop then ret client_thread_list
      else
        (* Wait for incoming connection requests. *)
        wait_readable [listener] ;;;
        (* Stop event, exit listener loop. *)
        stop <- is_set ;;
        if stop then ret client_thread_list
        else
          (* Accept incomming connection. *)
          emit Accept ;;;
          (* Create a new thread to handle communication with the client. *)
          thread <- start_thread ;;
          let client_thread_list := client_thread_list ++ [thread] in
          (* Clean up old threads that have terminated. *)
          sessions_progress ;;;
          client_thread_list <- alive_only client_thread_list ;;
          accept_loop fuel' client_thread_list
  end.

(** The listener from the head of its loop, holding [client_thread_list]. *)
Definition serve (client_thread_list : list thread) : M world unit :=
  client_thread_list <-
    (fun w => accept_loop (S (length (env w))) client_thread_list w) ;;
  (* Wait for all client threads to terminate. *)
  join_all client_thread_list ;;;
  (* Close listener socket. *)
  emit Close_listener.

Definition listener_thread : M world unit :=
  with_listener
    ((* Create a socket for listening to incoming connections. *)
     emit Listen ;;;
     (* Client thread storage. *)
     serve []).

(* ------------------------------------------------------------------ *)
(** *** handle_exit (lines 41-64)

    The handler runs in the main thread.  [listener_thread_join] is what
    [listener_thread.join()] waits for: the rest of the listener's run. *)

Definition handle_exit (listener_thread_join : M world unit)
  : M world unit :=
  (* Send stop event to threads. *)
  Event_set ;;;
  (* Wait for threads end. *)
  listener_thread_join ;;;
  (* Exit python application. *)
  sys_exit 0.

(** The status the process exits with when its main thread ends in [r]:
    [SystemExit] carries it, a return is status 0, any other exception is
    status 1, and a main thread that never ends gives none. *)
Definition exit_status {A} (r : result world A) : option Z :=
  match r with
  | Ok _ _ => Some 0
  | Raised (SystemExit code) _ => Some code
  | Raised TypeError _ => Some 1
  | Hang _ | OutOfFuel => None
  end.

End Listener.

(* ================================================================== *)
(** ** Occurrences of a byte sequence *)

(** [sub] occurs in [data]. *)
Definition contains (data sub : bytes) : Prop :=
  exists pre post, data = pre ++ sub ++ post.

(** [data] splits as [pre ++ sub ++ post] at the first occurrence of
    [sub]: no occurrence starts earlier. *)
Definition first_occurrence (data sub pre post : bytes) : Prop :=
  data = pre ++ sub ++ post /\
  forall pre' post', data = pre' ++ sub ++ post' ->
                     (length pre <= length pre')%nat.

(* ================================================================== *)
(** ** Invariants of computations *)

(** Every world a computation can end in is related to the one it started
    from. *)
Definition preserves {W A} (R : W -> W -> Prop) (m : M W A) : Prop :=
  forall w,
    match final_world (m w) with
    | Some w' => R w w'
    | None => True
    end.

(** The bound of a computation's loops is never exhausted. *)
Definition within_bounds {W A} (m : M W A) : Prop :=
  forall w, m w <> OutOfFuel.

(* ================================================================== *)
(** ** Worlds and traces of a session *)

Module SessionSpec.
Import Session.

(** [w] with [tr] appended to its trace. *)
Definition logs (tr : list event) (w : world) : world :=
  {| stop_event := stop_event w; env := env w; client := client w;
     printer := printer w; trace := trace w ++ tr |}.

(** [w] with the pending segments of [s] replaced. *)
Definition set_rx (s : sock) (q : list bytes) (w : world) : world :=
  set_conn s {| rx := q; shut_wr := shut_wr (conn_of s w);
                closed := closed (conn_of s w) |} w.

(** The trace of the orderly close of [s]: the write half is shut, the
    chunks of [drained] are read and dropped, a read returns the empty
    string, and the socket is closed. *)
Definition orderly_close (s : sock) (drained : list bytes) : list event :=
  Shutdown_WR s :: map (Recv s 1024) drained ++ [Recv s 1024 []; Close s].

(** The world after the orderly close of [s]. *)
Definition closed_down (s : sock) (drained : list bytes) (w : world) : world :=
  logs (orderly_close s drained)
       (set_conn s {| rx := []; shut_wr := true; closed := true |} w).

(** The world after [s.close()]. *)
Definition closed_by (s : sock) (w : world) : world :=
  log (Close s)
      (set_conn s {| rx := rx (conn_of s w); shut_wr := shut_wr (conn_of s w);
                     closed := true |} w).

(** A connection that has been shut, drained and closed. *)
Definition released : conn :=
  {| rx := []; shut_wr := true; closed := true |}.

(** The cap the forwarding loop puts on a read from [s]. *)
Definition read_cap (s : sock) : Z :=
  match s with
  | client_socket => MAX_DATA_IMG
  | printer_socket => MAX_DATA_XML
  end.

(** Where the loop writes what it read from [s]. *)
Definition sock_dst (s : sock) : sock :=
  match s with
  | client_socket => printer_socket
  | printer_socket => client_socket
  end.

(** An event that is no read, or a read that asks for [read_cap] bytes
    and returns no more than that. *)
Definition read_within_cap (e : event) : Prop :=
  match e with
  | Recv s max_bytes data => max_bytes = read_cap s /\ len data <= max_bytes
  | _ => True
  end.

(** The trace only grows, and by events that satisfy [P]. *)
Definition grows_by (P : event -> Prop) (w w' : world) : Prop :=
  exists tr, trace w' = trace w ++ tr /\ Forall P tr.

(** The stop event is not reset. *)
Definition stop_kept (w w' : world) : Prop :=
  Bool.le (stop_event w) (stop_event w').

(** The script and the stop event are as they were. *)
Definition same_script (w w' : world) : Prop :=
  env w' = env w /\ stop_event w' = stop_event w.

(** A relation that every step of a session keeps, but for the steps that
    add to the trace and the step that takes polls from the script. *)
Record step_invariant (R : world -> world -> Prop) : Prop :=
  { inv_refl : forall w, R w w;
    inv_trans : forall w1 w2 w3, R w1 w2 -> R w2 w3 -> R w1 w3;
    inv_conn : forall s c w, R w (set_conn s c w) }.

(** [R] also allows the stop event to be set and polls to be taken from
    the script. *)
Definition allows_wait (R : world -> world -> Prop) : Prop :=
  forall w stop' env',
    Bool.le (stop_event w) stop' ->
    R w {| stop_event := stop'; env := env'; client := client w;
           printer := printer w; trace := trace w |}.

(* ------------------------------------------------------------------ *)
(** *** Scenarios *)

(** A connection that has just been opened, with [q] for its peer to
    deliver. *)
Definition fresh (q : list bytes) : conn :=
  {| rx := q; shut_wr := false; closed := false |}.

(** A poll that reports the sockets [readable] likes and carries no
    signal, and the poll during which the termination signal arrives
    while no socket is readable. *)
Definition quiet (readable : sock -> bool) : poll sock :=
  {| ready := readable; sigterm := false |}.
Definition interrupted : poll sock :=
  {| ready := fun _ => false; sigterm := true |}.

(** The client sends a job descriptor and hangs up; the printer has
    acknowledged in the meantime. *)
Definition job_then_hangup : world :=
  {| stop_event := false;
     env := [quiet (fun s => sock_is s client_socket);
             quiet (fun s => sock_is s client_socket)];
     client := fresh [b "<print><job>1</job></print>"];
     printer := fresh [b "ok"];
     trace := [] |}.

(** The printer answers with a chunk that happens to contain the closing
    tag. *)
Definition printer_reply : world :=
  {| stop_event := false;
     env := [quiet (fun s => sock_is s printer_socket)];
     client := fresh [];
     printer := fresh [b "<status>idle</status></print>"];
     trace := [] |}.

(** The session is idle in the multiplexer when the termination signal
    arrives. *)
Definition cancelled_while_idle : world :=
  {| stop_event := false;
     env := [quiet (fun _ => false); interrupted];
     client := fresh [b "<print>"];
     printer := fresh [];
     trace := [] |}.

End SessionSpec.

(* ================================================================== *)
(** ** Worlds and traces of the listener *)

Module ListenerSpec.
Import Listener.

(** The world the listener thread starts in: no client thread yet, the
    stop event as the main thread left it. *)
Definition initial (stop : bool) (polls : list (poll sock))
           (ends : list (list thread)) : world :=
  {| stop_event := stop; env := polls; finishing := ends;
     started := 0; terminated := []; trace := [] |}.

(** The stop event is not reset. *)
Definition stop_kept (w w' : world) : Prop :=
  Bool.le (stop_event w) (stop_event w').

(** No connection is accepted after a check of the stop event has found
    it set. *)
Definition no_accept_after_stop (tr : list event) : Prop :=
  forall before after,
    tr = before ++ Is_set true :: after -> ~ In Accept after.

(** The events of the accept loop before it finds the stop event set. *)
Definition serving (e : event) : Prop :=
  e = Is_set false \/ e = Accept \/ exists t, e = Start t.

(** The list the listener holds accounts for every thread it started:
    a thread is in the list or has ended, and the threads that have ended
    are those the environment has named up to now. *)
Definition accounted (ends : list (list thread)) (l : list thread)
           (w : world) : Prop :=
  (forall t, (t < started w)%nat -> In t l \/ In t (terminated w)) /\
  (forall t, In t (terminated w) -> In t (concat ends)) /\
  (exists seen, ends = seen ++ finishing w).

(** The events of one turn of the accept loop that accepts a connection:
    the loop's check and the check after the wait both find the stop
    event clear, the connection is accepted, thread [t] is started. *)
Definition turn (t : thread) : list event :=
  [Is_set false; Is_set false; Accept; Start t].

(** [k] such turns in a row, starting the threads [t], [t + 1], ... *)
Definition turns (t : thread) (k : nat) : list event :=
  concat (map turn (seq t k)).

(** The connection requests a script holds: its polls that report the
    accepting socket readable. *)
Definition requests (polls : list (poll sock)) : list (poll sock) :=
  filter (fun q => ready q listener) polls.

(** The number of [Accept] events of a trace. *)
Fixpoint accepted (tr : list event) : nat :=
  match tr with
  | [] => 0
  | Accept :: tr' => S (accepted tr')
  | _ :: tr' => accepted tr'
  end.

End ListenerSpec.

(* ================================================================== *)
(** ** What a trace shows of the traffic *)

Module SessionTrace.
Import Session SessionSpec.

(** The chunks read from [s] that carried data, in order. *)
Fixpoint received_from (s : sock) (tr : list event) : list bytes :=
  match tr with
  | [] => []
  | Recv s' _ data :: tr' =>
      if sock_is s' s && negb (is_empty data)
      then data :: received_from s tr'
      else received_from s tr'
  | _ :: tr' => received_from s tr'
  end.

(** The chunks written to [s], in order. *)
Fixpoint sent_to (s : sock) (tr : list event) : list bytes :=
  match tr with
  | [] => []
  | Sendall s' data :: tr' =>
      if sock_is s' s then data :: sent_to s tr' else sent_to s tr'
  | _ :: tr' => sent_to s tr'
  end.

(** In each direction, what was written is [modify_xml] of what was
    read, chunk by chunk and in the order of the reads. *)
Definition relayed (tr : list event) : Prop :=
  forall s, sent_to (sock_dst s) tr = map modify_xml (received_from s tr).

(** The trace grows by a part that is [relayed]. *)
Definition relays (w w' : world) : Prop :=
  exists tr, trace w' = trace w ++ tr /\ relayed tr.

(** The trace ends with a read that returned the empty string. *)
Definition ends_with_eof (tr : list event) : Prop :=
  exists before s, tr = before ++ [Recv s (read_cap s) []].

(** A poll in which no socket is readable and no signal arrives. *)
Definition idle_poll {Sock} (socket_list : list Sock) (p : poll Sock) : Prop :=
  filter (ready p) socket_list = [] /\ sigterm p = false.

End SessionTrace.

Module ListenerTrace.
Import Listener ListenerSpec.

(** The number of connections accepted. *)
Fixpoint accepts (tr : list event) : nat :=
  match tr with
  | [] => 0
  | Accept :: tr' => S (accepts tr')
  | _ :: tr' => accepts tr'
  end.

(** The threads joined, in order. *)
Fixpoint joined_of (tr : list event) : list thread :=
  match tr with
  | [] => []
  | Join t :: tr' => t :: joined_of tr'
  | _ :: tr' => joined_of tr'
  end.

(** The list the listener holds names each thread once, and only threads
    it has started; it has accepted as many connections as it has
    started threads, and joined none yet. *)
Definition registry_ok (l : list thread) (w : world) : Prop :=
  NoDup l /\
  Forall (fun t => (t < started w)%nat) l /\
  accepts (trace w) = started w /\
  joined_of (trace w) = [].

End ListenerTrace.
(* ================================================================== *)
(** * Properties *)

(* ================================================================== *)
(** ** The search and the slices *)

Lemma startswith_true data sub :
  startswith data sub = true <-> exists post, data = sub ++ post.
Proof.
  revert data; induction sub as [|p sub IH]; intros data; simpl.
  - split; [intros _; now exists data | reflexivity].
  - destruct data as [|d data].
    + split; [discriminate | intros [post H]; discriminate].
    + rewrite andb_true_iff, IH. split.
      * intros [Hd [post ->]]. apply Byte.byte_dec_bl in Hd. subst.
        now exists post.
      * intros [post H]. injection H as -> ->. split.
        -- now apply Byte.byte_dec_lb.
        -- now exists post.
Qed.

Lemma startswith_false data sub :
  startswith data sub = false -> forall post, data <> sub ++ post.
Proof.
  intros H post E.
  assert (startswith data sub = true) by (apply startswith_true; eauto).
  congruence.
Qed.

Lemma len_nonneg data : 0 <= len data.
Proof. unfold len; lia. Qed.

Lemma len_app x y : len (x ++ y) = len x + len y.
Proof. unfold len. rewrite length_app. lia. Qed.

(** The result of the scan: either [-1] and no occurrence at all, or the
    offset of the first one. *)
Lemma find_from_spec data sub i :
  (find_from i data sub = -1 /\ ~ contains data sub) \/
  (exists pre post,
      find_from i data sub = i + len pre /\ first_occurrence data sub pre post).
Proof.
  revert i; induction data as [|d data IH]; intros i; simpl.
  - destruct (startswith [] sub) eqn:E.
    + right. apply startswith_true in E as [post E].
      exists [], post. split; [unfold len; simpl; lia|].
      split; [exact E|]. intros; simpl; lia.
    + left. split; [reflexivity|]. intros (pre & post & H).
      destruct pre; [|discriminate]. simpl in H.
      now apply (startswith_false _ _ E post).
  - destruct (startswith (d :: data) sub) eqn:E.
    + right. apply startswith_true in E as [post E].
      exists [], post. split; [unfold len; simpl; lia|].
      split; [exact E|]. intros; simpl; lia.
    + destruct (IH (i + 1)) as [[Hf Hn] | (pre & post & Hf & Hs & Hmin)].
      * left. split; [exact Hf|]. intros (pre & post & H).
        destruct pre as [|x pre]; simpl in H.
        -- now apply (startswith_false _ _ E post).
        -- injection H as _ H. apply Hn. now exists pre, post.
      * right. exists (d :: pre), post. split; [|split].
        -- rewrite Hf. unfold len; simpl length. lia.
        -- simpl. now rewrite Hs.
        -- intros pre' post' H. destruct pre' as [|x pre']; simpl in H.
           ++ exfalso. now apply (startswith_false _ _ E post').
           ++ injection H as _ H. apply Hmin in H. simpl. lia.
Qed.

Lemma slice_bound_len pre rest : slice_bound (pre ++ rest) (len pre) = length pre.
Proof.
  unfold slice_bound. rewrite len_app.
  pose proof (len_nonneg pre). pose proof (len_nonneg rest).
  destruct (Z.ltb_spec (len pre) 0); [lia|].
  rewrite Z.min_r by lia. unfold len. apply Nat2Z.id.
Qed.

Lemma slice_to_app pre rest : slice_to (pre ++ rest) (len pre) = pre.
Proof.
  unfold slice_to. rewrite slice_bound_len.
  rewrite firstn_app, Nat.sub_diag, firstn_all. simpl. apply app_nil_r.
Qed.

Lemma slice_from_app pre rest : slice_from (pre ++ rest) (len pre) = rest.
Proof.
  unfold slice_from. rewrite slice_bound_len.
  rewrite skipn_app, Nat.sub_diag, skipn_all. reflexivity.
Qed.

(** Two splits of one byte string at the same offset are the same split. *)
Lemma split_unique (pre pre' rest rest' : bytes) :
  pre ++ rest = pre' ++ rest' -> length pre = length pre' ->
  pre = pre' /\ rest = rest'.
Proof.
  revert pre'; induction pre as [|x pre IH]; intros [|y pre'] E L;
    simpl in *; try discriminate.
  - now split.
  - injection E as -> E. injection L as L.
    destruct (IH _ E L) as [-> ->]. now split.
Qed.

Lemma first_occurrence_unique data sub pre post pre' post' :
  first_occurrence data sub pre post ->
  first_occurrence data sub pre' post' ->
  pre = pre' /\ post = post'.
Proof.
  intros [E M] [E' M'].
  assert (L : length pre = length pre').
  { apply Nat.le_antisymm; [eapply M; eassumption | eapply M'; eassumption]. }
  rewrite E in E'. destruct (split_unique _ _ _ _ E' L) as [-> E2].
  split; [reflexivity|]. now apply app_inv_head in E2.
Qed.

Lemma contains_first_occurrence data sub :
  contains data sub -> exists pre post, first_occurrence data sub pre post.
Proof.
  intros C. destruct (find_from_spec data sub 0) as [[_ N] | (pre & post & _ & F)].
  - contradiction.
  - now exists pre, post.
Qed.

(** [find] returns the offset of the first occurrence. *)
Lemma bytes_find_first data sub pre post :
  first_occurrence data sub pre post -> bytes_find data sub = len pre.
Proof.
  intros F. unfold bytes_find.
  destruct (find_from_spec data sub 0) as [[_ N] | (pre' & post' & Hf & F')].
  - exfalso. apply N. destruct F as [E _]. now exists pre, post.
  - destruct (first_occurrence_unique _ _ _ _ _ _ F F') as [-> _].
    rewrite Hf. lia.
Qed.

Lemma bytes_find_absent data sub :
  ~ contains data sub -> bytes_find data sub = -1.
Proof.
  intros N. unfold bytes_find.
  destruct (find_from_spec data sub 0) as [[Hf _] | (pre & post & _ & [E _])].
  - exact Hf.
  - exfalso. apply N. now exists pre, post.
Qed.

(** An offset [find] returns together with a split there is the first
    occurrence. *)
Lemma first_occurrence_of_find data sub pre post :
  data = pre ++ sub ++ post -> bytes_find data sub = len pre ->
  first_occurrence data sub pre post.
Proof.
  intros E Hf. unfold bytes_find in Hf.
  destruct (find_from_spec data sub 0) as [[Hm _] | (pre' & post' & Hf' & F')].
  - pose proof (len_nonneg pre). lia.
  - assert (L : length pre = length pre') by (unfold len in *; lia).
    destruct F' as [E' M']. rewrite E in E'.
    destruct (split_unique _ _ _ _ E' L) as [<- E2].
    apply app_inv_head in E2 as <-. split; [exact E|exact M'].
Qed.

(* ================================================================== *)
(** ** The rewriter *)

Lemma modify_xml_with_picture find data :
  MAX_DATA_XML < len data ->
  modify_xml_with find data = (data, [Picture_received]).
Proof.
  intros H. unfold modify_xml_with.
  destruct (Z.gtb_spec (len data) MAX_DATA_XML); [reflexivity | lia].
Qed.

Lemma modify_xml_with_inserts data pre post :
  len data <= MAX_DATA_XML ->
  first_occurrence data END_TAG pre post ->
  modify_xml_with bytes_find data =
    (pre ++ NEW_LINE ++ END_TAG ++ post,
     [XML_content data; XML_modified (pre ++ NEW_LINE ++ END_TAG ++ post)]).
Proof.
  intros H F. pose proof (bytes_find_first _ _ _ _ F) as Hf.
  destruct F as [-> _]. unfold modify_xml_with.
  destruct (Z.gtb_spec (len (pre ++ END_TAG ++ post)) MAX_DATA_XML); [lia|].
  rewrite Hf. pose proof (len_nonneg pre).
  destruct (Z.eqb_spec (len pre) (-1)); [lia|].
  now rewrite slice_to_app, slice_from_app.
Qed.

Lemma modify_xml_with_absent data :
  len data <= MAX_DATA_XML ->
  ~ contains data END_TAG ->
  modify_xml_with bytes_find data = (data, [XML_content data]).
Proof.
  intros H N. unfold modify_xml_with.
  destruct (Z.gtb_spec (len data) MAX_DATA_XML); [lia|].
  now rewrite (bytes_find_absent _ _ N).
Qed.

(** C3. A chunk shorter than the descriptor threshold that contains
    [</print>] comes out with the line [<cutmode>full</cutmode>] and a
    newline inserted once, just before the first [</print>], every other
    byte in place; one that does not contain [</print>] comes out as it
    is.  The descriptor [<print><job>1</job></print>] is the example. *)
Theorem modify_xml_descriptor (data : bytes) :
  len data < MAX_DATA_XML ->
  (contains data END_TAG ->
   exists pre post,
     first_occurrence data END_TAG pre post /\
     modify_xml data = pre ++ NEW_LINE ++ END_TAG ++ post) /\
  (~ contains data END_TAG -> modify_xml data = data) /\
  modify_xml (b "<print><job>1</job></print>") =
    b "<print><job>1</job><cutmode>full</cutmode>" ++ [x0a] ++ b "</print>".
Proof.
  intros H. split; [|split].
  - intros C. destruct (contains_first_occurrence _ _ C) as (pre & post & F).
    exists pre, post. split; [exact F|]. unfold modify_xml.
    rewrite (modify_xml_with_inserts data pre post); [reflexivity | lia | exact F].
  - intros N. unfold modify_xml.
    rewrite modify_xml_with_absent; [reflexivity | lia | exact N].
  - vm_compute. reflexivity.
Qed.

Lemma modify_xml_descriptor_witness :
  len (b "<print></print>") < MAX_DATA_XML /\
  ((contains (b "<print></print>") END_TAG ->
    exists pre post,
      first_occurrence (b "<print></print>") END_TAG pre post /\
      modify_xml (b "<print></print>") = pre ++ NEW_LINE ++ END_TAG ++ post) /\
   (~ contains (b "<print></print>") END_TAG ->
    modify_xml (b "<print></print>") = b "<print></print>") /\
   modify_xml (b "<print><job>1</job></print>") =
     b "<print><job>1</job><cutmode>full</cutmode>" ++ [x0a] ++ b "</print>").
Proof.
  split; [reflexivity|].
  apply (modify_xml_descriptor (b "<print></print>")). reflexivity.
Defined.

(** C9. The size test is strict: a chunk of exactly [MAX_DATA_XML] (50000)
    bytes is a descriptor, searched and rewritten when it contains
    [</print>]; a chunk is passed through as a picture exactly when it is
    longer than that. *)
Theorem modify_xml_threshold_inclusive (data : bytes) :
  len data = MAX_DATA_XML ->
  contains data END_TAG ->
  (exists pre post,
      first_occurrence data END_TAG pre post /\
      modify_xml data = pre ++ NEW_LINE ++ END_TAG ++ post /\
      modify_xml_log data =
        [XML_content data; XML_modified (pre ++ NEW_LINE ++ END_TAG ++ post)]) /\
  MAX_DATA_XML = 50000 /\
  (forall chunk,
      modify_xml_log chunk = [Picture_received] <-> MAX_DATA_XML < len chunk).
Proof.
  intros H C. split; [|split; [reflexivity|]].
  - destruct (contains_first_occurrence _ _ C) as (pre & post & F).
    exists pre, post. split; [exact F|].
    unfold modify_xml, modify_xml_log.
    rewrite (modify_xml_with_inserts data pre post); [now split | lia | exact F].
  - intros chunk. unfold modify_xml_log, modify_xml_with.
    destruct (Z.gtb_spec (len chunk) MAX_DATA_XML) as [G|G].
    + simpl. split; [intros _; lia | reflexivity].
    + split; [|lia].
      destruct (bytes_find chunk END_TAG =? -1); discriminate.
Qed.

Lemma modify_xml_threshold_inclusive_witness :
  let data := repeat x00 (Z.to_nat 49992) ++ END_TAG in
  len data = MAX_DATA_XML /\
  contains data END_TAG /\
  ((exists pre post,
       first_occurrence data END_TAG pre post /\
       modify_xml data = pre ++ NEW_LINE ++ END_TAG ++ post /\
       modify_xml_log data =
         [XML_content data;
          XML_modified (pre ++ NEW_LINE ++ END_TAG ++ post)]) /\
   MAX_DATA_XML = 50000 /\
   (forall chunk,
       modify_xml_log chunk = [Picture_received] <-> MAX_DATA_XML < len chunk)).
Proof.
  intros data.
  assert (L : len data = MAX_DATA_XML).
  { subst data. rewrite len_app. unfold len at 1. rewrite repeat_length.
    rewrite Z2Nat.id by lia. reflexivity. }
  assert (C : contains data END_TAG).
  { exists (repeat x00 (Z.to_nat 49992)), []. subst data.
    now rewrite app_nil_r. }
  split; [exact L|]. split; [exact C|].
  exact (modify_xml_threshold_inclusive data L C).
Defined.

(* ------------------------------------------------------------------ *)
(** *** Rewriting a rewritten chunk *)

Lemma END_TAG_bytes :
  END_TAG = [x3c; x2f; x70; x72; x69; x6e; x74; x3e].
Proof. reflexivity. Qed.

Lemma NEW_LINE_bytes :
  NEW_LINE = [x3c; x63; x75; x74; x6d; x6f; x64; x65; x3e;
              x66; x75; x6c; x6c;
              x3c; x2f; x63; x75; x74; x6d; x6f; x64; x65; x3e; x0a].
Proof. reflexivity. Qed.

(** The scan from offset [i] is the scan from offset [0], shifted. *)
Lemma find_from_shift data sub i :
  (find_from i data sub = -1 /\ find_from 0 data sub = -1) \/
  (0 <= find_from 0 data sub /\
   find_from i data sub = i + find_from 0 data sub).
Proof.
  destruct (find_from_spec data sub i) as [[Hi Ni] | (pi & qi & Hi & Fi)];
    destruct (find_from_spec data sub 0) as [[H0 N0] | (p0 & q0 & H0 & F0)].
  - now left.
  - exfalso. apply Ni. destruct F0 as [E _]. now exists p0, q0.
  - exfalso. apply N0. destruct Fi as [E _]. now exists pi, qi.
  - right. destruct (first_occurrence_unique _ _ _ _ _ _ Fi F0) as [-> _].
    pose proof (len_nonneg p0). lia.
Qed.

(** Inserting the directive before an occurrence of the closing tag makes
    no occurrence that starts earlier. *)
Lemma startswith_insert (u post : bytes) :
  u <> [] ->
  startswith (u ++ END_TAG ++ post) END_TAG = false ->
  startswith (u ++ NEW_LINE ++ END_TAG ++ post) END_TAG = false.
Proof.
  rewrite END_TAG_bytes, NEW_LINE_bytes. intros Hu.
  do 8 (destruct u as [|? u];
        [ try congruence; intros _; cbn [startswith app];
          change (Byte.eqb x3c x2f) with false;
          change (Byte.eqb x3c x70) with false;
          change (Byte.eqb x3c x72) with false;
          change (Byte.eqb x3c x69) with false;
          change (Byte.eqb x3c x6e) with false;
          change (Byte.eqb x3c x74) with false;
          change (Byte.eqb x3c x3e) with false;
          cbn [andb]; rewrite ?andb_false_r; reflexivity
        | ]).
  cbn [startswith app]. exact (fun H => H).
Qed.

Lemma bytes_find_after_insert (pre post : bytes) :
  bytes_find (pre ++ END_TAG ++ post) END_TAG = len pre ->
  bytes_find (pre ++ NEW_LINE ++ END_TAG ++ post) END_TAG =
    len pre + len NEW_LINE.
Proof.
  unfold bytes_find. induction pre as [|d pre IH]; intros H.
  - vm_compute. reflexivity.
  - change ((d :: pre) ++ END_TAG ++ post)
      with (d :: (pre ++ END_TAG ++ post)) in H.
    change ((d :: pre) ++ NEW_LINE ++ END_TAG ++ post)
      with (d :: (pre ++ NEW_LINE ++ END_TAG ++ post)).
    assert (L : len (d :: pre) = 1 + len pre)
      by (unfold len; simpl length; lia).
    pose proof (len_nonneg pre) as Hp.
    cbn [find_from] in *.
    destruct (startswith (d :: pre ++ END_TAG ++ post) END_TAG) eqn:E;
      [lia|].
    replace (startswith (d :: pre ++ NEW_LINE ++ END_TAG ++ post) END_TAG)
      with false
      by (symmetry; apply (startswith_insert (d :: pre)); [discriminate|exact E]).
    destruct (find_from_shift (pre ++ END_TAG ++ post) END_TAG (0 + 1))
      as [[H1 _] | [_ H1]]; [lia|].
    assert (H0 : find_from 0 (pre ++ END_TAG ++ post) END_TAG = len pre) by lia.
    specialize (IH H0).
    destruct (find_from_shift (pre ++ NEW_LINE ++ END_TAG ++ post) END_TAG (0 + 1))
      as [[_ H2] | [_ H2]]; [pose proof (len_nonneg NEW_LINE); lia|].
    lia.
Qed.

(** On a descriptor that is still a descriptor after the insertion, the
    rewriter inserts the directive again, before the same [</print>]. *)
Lemma modify_xml_twice data pre post :
  first_occurrence data END_TAG pre post ->
  len data + len NEW_LINE <= MAX_DATA_XML ->
  modify_xml (modify_xml data) = pre ++ NEW_LINE ++ NEW_LINE ++ END_TAG ++ post.
Proof.
  intros F H. pose proof (len_nonneg NEW_LINE) as Hn.
  unfold modify_xml at 2.
  rewrite (modify_xml_with_inserts data pre post); [|lia|exact F].
  cbn [fst]. unfold modify_xml.
  assert (F2 : first_occurrence (pre ++ NEW_LINE ++ END_TAG ++ post) END_TAG
                                (pre ++ NEW_LINE) post).
  { apply first_occurrence_of_find.
    - now rewrite <- app_assoc.
    - rewrite len_app. apply bytes_find_after_insert.
      destruct F as [E M]. subst data.
      apply (bytes_find_first _ _ pre post).
      split; [reflexivity | exact M]. }
  rewrite (modify_xml_with_inserts _ (pre ++ NEW_LINE) post); [| |exact F2].
  - cbn [fst]. now rewrite <- app_assoc.
  - destruct F as [-> _]. rewrite !len_app in *. lia.
Qed.

(** C10. The rewriter is not idempotent: on a descriptor shorter than
    the threshold that contains [</print>] (here one that carries the
    directive already) a second pass gives another result than the first,
    with one more directive line before the first [</print>]. *)
Theorem modify_xml_not_idempotent :
  exists data pre post,
    len data < MAX_DATA_XML /\
    first_occurrence data END_TAG pre post /\
    data = b "<print>" ++ NEW_LINE ++ b "</print>" /\
    modify_xml data = pre ++ NEW_LINE ++ END_TAG ++ post /\
    modify_xml (modify_xml data) =
      pre ++ NEW_LINE ++ NEW_LINE ++ END_TAG ++ post /\
    modify_xml (modify_xml data) <> modify_xml data.
Proof.
  exists (b "<print>" ++ NEW_LINE ++ b "</print>"),
         (b "<print>" ++ NEW_LINE), [].
  assert (F : first_occurrence (b "<print>" ++ NEW_LINE ++ b "</print>")
                               END_TAG (b "<print>" ++ NEW_LINE) []).
  { apply first_occurrence_of_find; vm_compute; reflexivity. }
  split; [reflexivity|]. split; [exact F|]. split; [reflexivity|].
  split; [vm_compute; reflexivity|].
  split; [vm_compute; reflexivity|].
  vm_compute. discriminate.
Qed.

(* ================================================================== *)
(** ** Computations *)

Section Computations.

Context {W : Type}.

Lemma bind_Ok {A B} (m : M W A) (k : A -> M W B) w a w' :
  m w = Ok a w' -> bind m k w = k a w'.
Proof. unfold bind. now intros ->. Qed.

Lemma bind_Raised {A B} (m : M W A) (k : A -> M W B) w e w' :
  m w = Raised e w' -> bind m k w = Raised e w'.
Proof. unfold bind. now intros ->. Qed.

Variable R : W -> W -> Prop.
Hypothesis R_refl : forall w, R w w.
Hypothesis R_trans : forall w1 w2 w3, R w1 w2 -> R w2 w3 -> R w1 w3.

Lemma preserves_ret {A} (a : A) : preserves R (ret a).
Proof. intros w. apply R_refl. Qed.

Lemma preserves_raise {A} e : preserves R (@raise W A e).
Proof. intros w. apply R_refl. Qed.

Lemma preserves_bind {A B} (m : M W A) (k : A -> M W B) :
  preserves R m -> (forall a, preserves R (k a)) -> preserves R (bind m k).
Proof.
  intros Hm Hk w. specialize (Hm w). unfold bind.
  destruct (m w) as [a w1|e w1|w1|]; simpl in *; try assumption.
  specialize (Hk a w1). destruct (k a w1); simpl in *;
    try exact I; eapply R_trans; eassumption.
Qed.

Lemma preserves_iter {A} (v : option (list A)) : preserves R (iter v).
Proof. destruct v; [apply preserves_ret | apply preserves_raise]. Qed.

End Computations.

Lemma within_bounds_ret {W A} (a : A) : within_bounds (@ret W A a).
Proof. intros w; discriminate. Qed.

Lemma within_bounds_bind {W A B} (m : M W A) (k : A -> M W B) :
  within_bounds m -> (forall a, within_bounds (k a)) -> within_bounds (bind m k).
Proof.
  intros Hm Hk w. specialize (Hm w). unfold bind.
  destruct (m w); try discriminate; [apply Hk | congruence].
Qed.

(* ================================================================== *)
(** ** The multiplexer *)

Lemma socket_wait_readable_spec {Sock} (socket_list : list Sock) env :
  forall stop r stop' env',
    socket_wait_readable socket_list stop env = (r, stop', env') ->
    Bool.le stop stop' /\
    match r with
    | Returned (Some readable) =>
        stop = false /\ readable <> [] /\ (length env' < length env)%nat
    | Returned None => stop' = true
    | Polls_forever => stop' = false /\ env' = []
    end.
Proof.
  induction env as [|p env IH]; intros stop r stop' env'; simpl.
  - destruct stop; intros [= <- <- <-]; simpl; auto.
  - destruct stop; [intros [= <- <- <-]; simpl; auto|].
    destruct (filter (ready p) socket_list) eqn:F.
    + intros H. apply IH in H as [Hle Hr]. split; [exact I|].
      destruct r as [[l|]|]; [|exact Hr|exact Hr].
      destruct Hr as (Hs & Hl & Hlen).
      split; [reflexivity | split; [exact Hl | simpl; lia]].
    + intros [= <- <- <-]. simpl.
      split; [exact I | split; [reflexivity | split; [discriminate | lia]]].
Qed.

(* ================================================================== *)
(** ** The session *)

Module SessionProps.
Import Session SessionSpec.

(* ------------------------------------------------------------------ *)
(** *** Reads *)

Lemma split_at_spec seg :
  forall n data rest,
    split_at n seg = (data, rest) ->
    data ++ rest = seg /\
    len data <= Z.max 0 n /\
    (0 < n -> seg <> [] -> data <> []) /\
    (len seg <= n -> data = seg /\ rest = []) /\
    (0 <= n <= len seg -> len data = n).
Proof.
  induction seg as [|x seg IH]; intros n data rest; simpl.
  - intros [= <- <-]. unfold len; simpl.
    repeat split; try reflexivity; try lia. congruence.
  - destruct (Z.leb_spec n 0) as [Hn|Hn].
    + intros [= <- <-]. unfold len; simpl length.
      repeat split; try reflexivity; try lia.
    + destruct (split_at (n - 1) seg) as [d r] eqn:E.
      intros [= <- <-].
      destruct (IH _ _ _ E) as (Happ & Hlen & _ & Hall & Hexact).
      unfold len in *. simpl length.
      split; [simpl; now rewrite Happ|]. split; [lia|].
      split; [discriminate|]. split.
      * intros Hle. destruct Hall as [-> ->]; [lia|]. now split.
      * intros Hle. rewrite Nat2Z.inj_succ, Hexact; lia.
Qed.

Lemma recv_from_spec max_bytes q :
  0 < max_bytes ->
  forall data q',
    recv_from max_bytes q = (data, q') ->
    data ++ concat q' = concat q /\
    len data <= max_bytes /\
    (data = [] -> q' = []).
Proof.
  intros Hmax. induction q as [|seg q IH]; intros data q'; simpl.
  - intros [= <- <-]. repeat split. unfold len; simpl; lia.
  - destruct seg as [|x seg]; [exact (IH data q')|].
    destruct (split_at max_bytes (x :: seg)) as [d r] eqn:E.
    intros [= <- <-].
    destruct (split_at_spec _ _ _ _ E) as (Happ & Hlen & Hne & _ & _).
    split; [|split].
    + rewrite <- Happ. destruct r; simpl.
      * now rewrite app_nil_r.
      * now rewrite <- app_assoc.
    + lia.
    + intros ->. exfalso. now apply Hne.
Qed.

(** A first segment that fits the cap is read whole. *)
Lemma recv_from_whole max_bytes x seg q :
  len (x :: seg) <= max_bytes ->
  recv_from max_bytes ((x :: seg) :: q) = (x :: seg, q).
Proof.
  intros Hle. cbn [recv_from].
  destruct (split_at max_bytes (x :: seg)) as [d r] eqn:E.
  destruct (split_at_spec _ _ _ _ E) as (_ & _ & _ & Hall & _).
  now destruct (Hall Hle) as [-> ->].
Qed.

Lemma sock_recv_eq s max_bytes w :
  exists data q',
    recv_from max_bytes (rx (conn_of s w)) = (data, q') /\
    sock_recv s max_bytes w =
      Ok data (logs [Recv s max_bytes data] (set_rx s q' w)).
Proof.
  unfold sock_recv.
  destruct (recv_from max_bytes (rx (conn_of s w))) as [data q'].
  exists data, q'. split; [reflexivity|].
  destruct s, w; reflexivity.
Qed.

(* ------------------------------------------------------------------ *)
(** *** Relations between worlds *)

Lemma grows_by_refl P w : grows_by P w w.
Proof. exists []. split; [now rewrite app_nil_r | constructor]. Qed.

Lemma grows_by_trans P w1 w2 w3 :
  grows_by P w1 w2 -> grows_by P w2 w3 -> grows_by P w1 w3.
Proof.
  intros (t1 & E1 & F1) (t2 & E2 & F2). exists (t1 ++ t2). split.
  - now rewrite E2, E1, app_assoc.
  - now apply Forall_app.
Qed.



Lemma same_script_refl w : same_script w w.
Proof. now split. Qed.

Lemma same_script_trans w1 w2 w3 :
  same_script w1 w2 -> same_script w2 w3 -> same_script w1 w3.
Proof. intros [A B] [C D]. split; congruence. Qed.

Lemma grows_by_invariant P : step_invariant (grows_by P).
Proof.
  split; [apply grows_by_refl | apply grows_by_trans |].
  intros s c w. exists []. split; [|constructor].
  destruct s; simpl; now rewrite app_nil_r.
Qed.


Lemma same_script_invariant : step_invariant same_script.
Proof.
  split; [apply same_script_refl | apply same_script_trans |].
  intros s c w. destruct s; now split.
Qed.

Section Steps.

Variable R : world -> world -> Prop.
Hypothesis HR : step_invariant R.

(** What [R] has to allow of the events of a computation. *)
Variable allowed : event -> Prop.
Hypothesis R_log : forall e w, allowed e -> R w (log e w).

Let R_bind {A B} (m : M world A) (k : A -> M world B) :=
  preserves_bind R (inv_trans R HR) m k.

Lemma preserves_emit e : allowed e -> preserves R (emit e).
Proof. intros He w. simpl. now apply R_log. Qed.

Lemma preserves_is_set : preserves R is_set.
Proof. intros w. simpl. apply (inv_refl R HR). Qed.

Lemma preserves_sock_recv s max_bytes :
  (forall data, len data <= max_bytes -> allowed (Recv s max_bytes data)) ->
  0 < max_bytes ->
  preserves R (sock_recv s max_bytes).
Proof.
  intros He Hmax w. unfold sock_recv.
  destruct (recv_from max_bytes (rx (conn_of s w))) as [data q'] eqn:E.
  simpl. apply recv_from_spec in E as (_ & Hlen & _); [|exact Hmax].
  eapply (inv_trans R HR); [apply (inv_conn R HR) | apply R_log].
  now apply He.
Qed.

Lemma preserves_socket_read s max_bytes :
  (forall data, len data <= max_bytes -> allowed (Recv s max_bytes data)) ->
  0 < max_bytes ->
  preserves R (socket_read s max_bytes).
Proof.
  intros He Hmax. apply R_bind.
  - apply preserves_ret, (inv_refl R HR).
  - intros _. now apply preserves_sock_recv.
Qed.

Lemma preserves_print_all ls :
  (forall l, allowed (Print l)) -> preserves R (print_all ls).
Proof.
  intros He. induction ls as [|l ls IH]; simpl.
  - apply preserves_ret, (inv_refl R HR).
  - apply R_bind; [apply preserves_emit, He | intros _; exact IH].
Qed.

Lemma preserves_for_readable readable :
  (forall s data, len data <= read_cap s ->
                  allowed (Recv s (read_cap s) data)) ->
  (forall l, allowed (Print l)) ->
  (forall s data, allowed (Sendall s data)) ->
  preserves R (for_readable readable).
Proof.
  intros Hrecv Hprint Hsend.
  induction readable as [|sock rest IH]; simpl.
  - apply preserves_ret, (inv_refl R HR).
  - apply R_bind.
    + replace (if sock_is sock client_socket then MAX_DATA_IMG
               else MAX_DATA_XML) with (read_cap sock)
        by (now destruct sock).
      apply preserves_socket_read; [apply Hrecv | now destruct sock].
    + intros data. destruct (is_empty data).
      * apply preserves_ret, (inv_refl R HR).
      * apply R_bind; [now apply preserves_print_all|]. intros _.
        apply R_bind; [apply preserves_emit, Hsend|]. intros _. exact IH.
Qed.

End Steps.

Section Loop.

Variable R : world -> world -> Prop.
Hypothesis HR : step_invariant R.
Hypothesis R_wait : allows_wait R.
Variable allowed : event -> Prop.
Hypothesis R_log : forall e w, allowed e -> R w (log e w).

Let R_bind {A B} (m : M world A) (k : A -> M world B) :=
  preserves_bind R (inv_trans R HR) m k.

Lemma preserves_wait_readable socket_list :
  preserves R (wait_readable socket_list).
Proof.
  intros w. unfold wait_readable.
  destruct (socket_wait_readable socket_list (stop_event w) (env w))
    as [[r stop'] env'] eqn:E.
  apply socket_wait_readable_spec in E as [Hle _].
  destruct r; simpl; now apply R_wait.
Qed.

Hypothesis allowed_recv :
  forall s data, len data <= read_cap s -> allowed (Recv s (read_cap s) data).
Hypothesis allowed_print : forall l, allowed (Print l).
Hypothesis allowed_send : forall s data, allowed (Sendall s data).

Lemma preserves_forwarding fuel :
  forall exit_flag, preserves R (forwarding fuel exit_flag).
Proof.
  induction fuel as [|fuel IH]; intros exit_flag; simpl.
  - intros w. exact I.
  - apply R_bind; [now apply preserves_is_set|]. intros stop.
    destruct (negb stop && negb exit_flag).
    + apply R_bind; [apply preserves_wait_readable|]. intros readable.
      apply R_bind; [apply preserves_iter, (inv_refl R HR)|]. intros socks.
      apply R_bind; [now apply (preserves_for_readable R HR allowed)|].
      intros exit_now. apply IH.
    + apply preserves_ret, (inv_refl R HR).
Qed.

Lemma preserves_exchange : preserves R exchange.
Proof. intros w. apply preserves_forwarding. Qed.

Hypothesis allowed_all : forall e, allowed e.






End Loop.

(* ------------------------------------------------------------------ *)
(** *** The bound of the forwarding loop *)

Lemma within_bounds_emit e : within_bounds (emit e).
Proof. intros w; discriminate. Qed.

Lemma within_bounds_sock_recv s max_bytes : within_bounds (sock_recv s max_bytes).
Proof.
  intros w. destruct (sock_recv_eq s max_bytes w) as (d & q & _ & ->).
  discriminate.
Qed.

Lemma within_bounds_print_all ls : within_bounds (print_all ls).
Proof.
  induction ls; simpl; [apply within_bounds_ret|].
  apply within_bounds_bind; [apply within_bounds_emit | now intros _].
Qed.

Lemma within_bounds_for_readable readable : within_bounds (for_readable readable).
Proof.
  induction readable as [|sock rest IH]; simpl; [apply within_bounds_ret|].
  apply within_bounds_bind.
  - apply within_bounds_bind; [apply within_bounds_ret|].
    intros _. apply within_bounds_sock_recv.
  - intros data. destruct (is_empty data); [apply within_bounds_ret|].
    apply within_bounds_bind; [apply within_bounds_print_all|]. intros _.
    apply within_bounds_bind; [apply within_bounds_emit | now intros _].
Qed.

Lemma same_script_for_readable readable :
  preserves same_script (for_readable readable).
Proof.
  apply (preserves_for_readable same_script same_script_invariant
           (fun _ => True)); auto.
  intros e w _. now split.
Qed.

Lemma forwarding_within_bounds fuel :
  forall exit_flag w,
    (length (env w) < fuel)%nat -> forwarding fuel exit_flag w <> OutOfFuel.
Proof.
  induction fuel as [|fuel IH]; intros exit_flag w Hlen; [lia|].
  simpl. unfold bind at 1. simpl.
  destruct (negb (stop_event w) && negb exit_flag); [|discriminate].
  unfold bind at 1. unfold wait_readable.
  destruct (socket_wait_readable [client_socket; printer_socket]
              (stop_event w) (env w)) as [[r stop'] env'] eqn:E.
  apply socket_wait_readable_spec in E as [_ Hr].
  destruct r as [[readable|]|]; try discriminate.
  destruct Hr as (_ & _ & Hshort).
  unfold bind at 1. simpl. unfold bind at 1.
  set (w1 := {| stop_event := stop'; env := env'; client := client w;
                printer := printer w; trace := trace w |}).
  pose proof (within_bounds_for_readable readable w1) as Hb.
  pose proof (same_script_for_readable readable w1) as Hs.
  destruct (for_readable readable w1) as [exit_now w2|e w2|w2|];
    try discriminate; [|congruence].
  simpl in Hs. destruct Hs as [Henv _]. apply IH.
  rewrite Henv. simpl. lia.
Qed.

Lemma exchange_within_bounds : within_bounds exchange.
Proof. intros w. apply forwarding_within_bounds. lia. Qed.

(** C7. Every read of the forwarding loop asks for a number of bytes
    that depends on the socket alone: [MAX_DATA_IMG] on the client socket
    and [MAX_DATA_XML] on the printer socket; and no read returns more
    than it asked for. *)
Theorem forwarding_read_caps (w : world) :
  read_cap client_socket = MAX_DATA_IMG /\
  read_cap printer_socket = MAX_DATA_XML /\
  exists w',
    final_world (exchange w) = Some w' /\
    exists tr, trace w' = trace w ++ tr /\ Forall read_within_cap tr.
Proof.
  split; [reflexivity|]. split; [reflexivity|].
  pose proof (exchange_within_bounds w) as B.
  assert (P : preserves (grows_by read_within_cap) exchange).
  { apply (preserves_exchange _ (grows_by_invariant _)) with
      (allowed := read_within_cap).
    - intros w0 stop' env' _. exists []. simpl.
      split; [now rewrite app_nil_r | constructor].
    - intros e w0 He. exists [e]. split; [reflexivity | now constructor].
    - intros s data Hlen. simpl. now split.
    - intros l. exact I.
    - intros s data. exact I. }
  specialize (P w).
  destruct (exchange w) as [a w'|e w'|w'|]; simpl in *;
    try (exists w'; split; [reflexivity | exact P]).
  congruence.
Qed.

(* ------------------------------------------------------------------ *)
(** *** The orderly close *)

Lemma rx_logs_set_rx s tr q w : rx (conn_of s (logs tr (set_rx s q w))) = q.
Proof. destruct s; reflexivity. Qed.

Lemma wait_for_ack_spec fuel s :
  forall w,
    (pending s w < fuel)%nat ->
    exists drained,
      Forall (fun data => data <> []) drained /\
      concat drained = concat (rx (conn_of s w)) /\
      wait_for_ack fuel s w =
        Ok tt (logs (map (Recv s 1024) drained ++ [Recv s 1024 []])
                    (set_rx s [] w)).
Proof.
  induction fuel as [|fuel IH]; intros w Hlen; [lia|].
  simpl. unfold bind.
  destruct (sock_recv_eq s 1024 w) as (data & q' & E & ->).
  apply recv_from_spec in E as (Hcat & _ & Hnil); [|lia].
  destruct data as [|x data]; simpl.
  - exists []. rewrite (Hnil eq_refl) in *. simpl in Hcat.
    split; [constructor|]. split; [exact Hcat|].
    reflexivity.
  - destruct (IH (logs [Recv s 1024 (x :: data)] (set_rx s q' w)))
      as (drained & Hne & Hd & ->).
    + unfold pending in *. rewrite rx_logs_set_rx. rewrite <- Hcat in Hlen.
      simpl in Hlen. rewrite length_app in Hlen. lia.
    + exists ((x :: data) :: drained). split; [|split].
      * constructor; [discriminate | exact Hne].
      * rewrite rx_logs_set_rx in Hd. simpl. rewrite Hd. exact Hcat.
      * f_equal. destruct s, w; unfold logs, set_rx; simpl;
          now rewrite <- app_assoc.
Qed.

Lemma socket_close_spec s w :
  exists drained,
    Forall (fun data => data <> []) drained /\
    concat drained = concat (rx (conn_of s w)) /\
    socket_close s w = Ok tt (closed_down s drained w).
Proof.
  pose (c := conn_of s w).
  pose (w1 := log (Shutdown_WR s)
                  (set_conn s {| rx := rx c; shut_wr := true;
                                 closed := closed c |} w)).
  assert (H1 : sock_shutdown_wr s w = Ok tt w1) by reflexivity.
  destruct (wait_for_ack_spec (S (pending s w1)) s w1)
    as (drained & Hne & Hd & Hw); [lia|].
  exists drained. split; [exact Hne|]. split.
  - rewrite Hd. subst w1 c. now destruct s.
  - unfold socket_close. rewrite (bind_Ok _ _ _ _ _ H1).
    rewrite (bind_Ok (fun w0 => wait_for_ack (S (pending s w0)) s w0)
               _ w1 tt _ Hw).
    unfold sock_close. f_equal. subst w1 c.
    unfold closed_down, orderly_close.
    destruct s, w; unfold logs, log, set_rx, set_conn; simpl;
      rewrite <- !app_assoc; reflexivity.
Qed.

Lemma with_socket_Ok {A} s (body : M world A) w a w' :
  body w = Ok a w' -> with_socket s body w = Ok a (closed_by s w').
Proof. unfold with_socket, finally. now intros ->. Qed.

Lemma with_socket_Raised {A} s (body : M world A) w e w' :
  body w = Raised e w' -> with_socket s body w = Raised e (closed_by s w').
Proof. unfold with_socket, finally. now intros ->. Qed.

Lemma within_bounds_socket_close s : within_bounds (socket_close s).
Proof.
  intros w. destruct (socket_close_spec s w) as (d & _ & _ & ->).
  discriminate.
Qed.

Lemma within_bounds_with_socket {A} s (body : M world A) :
  within_bounds body -> within_bounds (with_socket s body).
Proof.
  intros Hb w. specialize (Hb w). unfold with_socket, finally.
  destruct (body w); try discriminate. congruence.
Qed.

(** The session thread never runs out of the bounds of its loops: it
    returns, raises, or waits for ever on a script that has ended. *)
Lemma within_bounds_client_thread : within_bounds client_thread.
Proof.
  unfold client_thread. apply within_bounds_with_socket.
  apply within_bounds_bind; [|intros _; apply within_bounds_socket_close].
  apply within_bounds_with_socket.
  apply within_bounds_bind; [apply within_bounds_emit|]. intros _.
  apply within_bounds_bind; [apply exchange_within_bounds|]. intros _.
  apply within_bounds_socket_close.
Qed.

(** C5. A session that leaves its forwarding loop closes both legs in
    order: the printer socket, then the client socket, each one shut for
    writing first, then read until a read returns the empty string, then
    closed.  What the drain reads is all that the peer still delivers,
    nothing of it is sent on, and both sockets end closed. *)
Theorem session_closes_both_legs (w w1 : world) :
  (emit Connect ;;; exchange) w = Ok tt w1 ->
  exists w2 drained_p drained_c closing,
    client_thread w = Ok tt w2 /\
    trace w2 = trace w1 ++ closing /\
    closing = orderly_close printer_socket drained_p
              ++ [Close printer_socket]
              ++ orderly_close client_socket drained_c
              ++ [Close client_socket] /\
    concat drained_p = concat (rx (printer w1)) /\
    concat drained_c = concat (rx (client w1)) /\
    (forall s data, ~ In (Sendall s data) closing) /\
    printer w2 = released /\
    client w2 = released.
Proof.
  intros H.
  assert (H1 : exchange (log Connect w) = Ok tt w1) by exact H.
  destruct (socket_close_spec printer_socket w1) as (dp & _ & Hdp & Hp).
  set (wp := closed_by printer_socket (closed_down printer_socket dp w1)).
  destruct (socket_close_spec client_socket wp) as (dc & _ & Hdc & Hc).
  exists (closed_by client_socket (closed_down client_socket dc wp)), dp, dc.
  eexists. split; [|split; [|split; [reflexivity|]]].
  - unfold client_thread. apply with_socket_Ok.
    assert (Hin : with_socket printer_socket
                    (emit Connect ;;; exchange ;;; socket_close printer_socket) w
                  = Ok tt wp).
    { apply with_socket_Ok.
      change ((exchange ;;; socket_close printer_socket) (log Connect w)
              = Ok tt (closed_down printer_socket dp w1)).
      now rewrite (bind_Ok _ _ _ _ _ H1). }
    now rewrite (bind_Ok _ _ _ _ _ Hin).
  - subst wp. destruct w1.
    unfold closed_by, closed_down, logs, log, orderly_close; simpl.
    repeat (rewrite <- !app_assoc; simpl). reflexivity.
  - split; [exact Hdp|]. split; [subst wp; destruct w1; exact Hdc|].
    split; [|split; subst wp; destruct w1; reflexivity].
    intros s data Hin. unfold orderly_close in Hin.
    repeat (rewrite ?in_app_iff in Hin; simpl in Hin).
    rewrite !in_map_iff in Hin.
    repeat match goal with
           | H : _ \/ _ |- _ => destruct H
           | H : exists _, _ /\ _ |- _ => destruct H as (? & ? & ?)
           | H : False |- _ => destruct H
           end; discriminate.
Qed.

Lemma session_closes_both_legs_witness :
  exists w1,
    (emit Connect ;;; exchange) job_then_hangup = Ok tt w1 /\
    exists w2 drained_p drained_c closing,
      client_thread job_then_hangup = Ok tt w2 /\
      trace w2 = trace w1 ++ closing /\
      closing = orderly_close printer_socket drained_p
                ++ [Close printer_socket]
                ++ orderly_close client_socket drained_c
                ++ [Close client_socket] /\
      concat drained_p = concat (rx (printer w1)) /\
      concat drained_c = concat (rx (client w1)) /\
      (forall s data, ~ In (Sendall s data) closing) /\
      printer w2 = released /\
      client w2 = released.
Proof.
  eexists. split; [vm_compute; reflexivity|].
  apply (session_closes_both_legs job_then_hangup).
  vm_compute. reflexivity.
Defined.

(* ------------------------------------------------------------------ *)
(** *** One chunk through the loop *)

(** A turn of the loop on a readable socket that delivers data: what was
    read is passed to [modify_xml] and the result written to the other
    socket. *)
Lemma for_readable_read s rest data q' w :
  recv_from (read_cap s) (rx (conn_of s w)) = (data, q') ->
  data <> [] ->
  for_readable (s :: rest) w =
    (print_all (modify_xml_log data) ;;;
     socket_write (sock_dst s) (modify_xml data) ;;;
     for_readable rest)
      (logs [Recv s (read_cap s) data] (set_rx s q' w)).
Proof.
  intros Hrecv Hdata. cbn [for_readable].
  replace (if sock_is s client_socket then MAX_DATA_IMG else MAX_DATA_XML)
    with (read_cap s) by (now destruct s).
  replace (if sock_is s client_socket then printer_socket else client_socket)
    with (sock_dst s) by (now destruct s).
  assert (Hread : socket_read s (read_cap s) w =
                  Ok data (logs [Recv s (read_cap s) data] (set_rx s q' w))).
  { unfold socket_read, stop_event_wait, bind, ret.
    destruct (sock_recv_eq s (read_cap s) w) as (d & q & E & ->).
    rewrite Hrecv in E. now injection E as <- <-. }
  rewrite (bind_Ok _ _ _ _ _ Hread).
  destruct data; [congruence | reflexivity].
Qed.

(** A first pending segment that fits the cap is read whole. *)
Lemma for_readable_chunk s rest x seg q w :
  rx (conn_of s w) = (x :: seg) :: q ->
  len (x :: seg) <= read_cap s ->
  for_readable (s :: rest) w =
    (print_all (modify_xml_log (x :: seg)) ;;;
     socket_write (sock_dst s) (modify_xml (x :: seg)) ;;;
     for_readable rest)
      (logs [Recv s (read_cap s) (x :: seg)] (set_rx s q w)).
Proof.
  intros Hrx Hlen. apply for_readable_read; [|discriminate].
  rewrite Hrx. now apply recv_from_whole.
Qed.

(** What the loop does with a picture: one line printed, the chunk
    written as it is. *)
Lemma for_readable_picture s data q' w :
  recv_from (read_cap s) (rx (conn_of s w)) = (data, q') ->
  MAX_DATA_XML < len data ->
  for_readable [s] w =
    Ok false
       (logs [Recv s (read_cap s) data; Print Picture_received;
              Sendall (sock_dst s) data]
             (set_rx s q' w)).
Proof.
  intros Hrecv Hlen.
  rewrite (for_readable_read s [] data q' w Hrecv)
    by (intros ->; unfold len, MAX_DATA_XML in Hlen; simpl in Hlen; lia).
  unfold modify_xml_log, modify_xml.
  rewrite modify_xml_with_picture by exact Hlen.
  destruct s, w; cbn [fst snd print_all for_readable];
    unfold bind, emit, socket_write, emit, ret, logs, log, set_rx, set_conn;
    cbn [trace]; now rewrite <- !app_assoc.
Qed.

(** A segment of 25,000,000 bytes from the client is longer than a read
    may return: it crosses in two reads, of 20,000,000 bytes and of the
    rest, each written to the printer as it is. *)
Lemma client_segment_25MB w seg q :
  rx (client w) = seg :: q ->
  len seg = 25000000 ->
  exists head tail w1 w2,
    seg = head ++ tail /\
    len head = MAX_DATA_IMG /\
    for_readable [client_socket] w = Ok false w1 /\
    trace w1 = trace w ++ [Recv client_socket MAX_DATA_IMG head;
                           Print Picture_received;
                           Sendall printer_socket head] /\
    for_readable [client_socket] w1 = Ok false w2 /\
    trace w2 = trace w1 ++ [Recv client_socket MAX_DATA_IMG tail;
                            Print Picture_received;
                            Sendall printer_socket tail] /\
    rx (client w2) = q.
Proof.
  intros Hrx Hlen.
  destruct (split_at MAX_DATA_IMG seg) as [head tail] eqn:E.
  destruct (split_at_spec _ _ _ _ E) as (Happ & _ & _ & _ & Hexact).
  assert (Hhead : len head = MAX_DATA_IMG)
    by (apply Hexact; unfold MAX_DATA_IMG; lia).
  assert (Htail : len tail = 5000000).
  { rewrite <- Happ, len_app in Hlen. unfold MAX_DATA_IMG in Hhead. lia. }
  assert (R1 : recv_from (read_cap client_socket) (rx (conn_of client_socket w))
               = (head, tail :: q)).
  { cbn [conn_of read_cap]. rewrite Hrx.
    destruct seg as [|x seg]; [unfold len in Hlen; simpl in Hlen; lia|].
    cbn [recv_from]. rewrite E.
    destruct tail; [unfold len in Htail; simpl in Htail; lia | reflexivity]. }
  pose proof (for_readable_picture client_socket head _ w R1
                ltac:(unfold MAX_DATA_XML, MAX_DATA_IMG in *; lia)) as F1.
  set (w1 := logs _ (set_rx client_socket (tail :: q) w)) in F1.
  assert (R2 : recv_from (read_cap client_socket)
                         (rx (conn_of client_socket w1)) = (tail, q)).
  { subst w1. destruct w. cbn [conn_of read_cap logs set_rx set_conn client rx].
    destruct tail as [|y tail]; [unfold len in Htail; simpl in Htail; lia|].
    apply recv_from_whole. unfold MAX_DATA_IMG. lia. }
  pose proof (for_readable_picture client_socket tail _ w1 R2
                ltac:(unfold MAX_DATA_XML; lia)) as F2.
  exists head, tail, w1. eexists. split; [now symmetry|].
  split; [exact Hhead|]. split; [exact F1|].
  split; [subst w1; now destruct w|]. split; [exact F2|].
  split; [reflexivity | subst w1; now destruct w].
Qed.

(** C4. A chunk longer than [MAX_DATA_XML] is returned as it is, with
    nothing but [Picture received.] printed, whatever a search for the
    closing tag would have found: the search is not run.  Read from the
    client socket, such a chunk is written to the printer socket byte for
    byte.  A chunk of 25,000,000 bytes is one of these; as a segment sent
    by the client it crosses in two reads, each written on as it is. *)
Theorem modify_xml_picture
        (find : bytes -> bytes -> Z) (data : bytes) :
  MAX_DATA_XML < len data ->
  modify_xml_with find data = (data, [Picture_received]) /\
  modify_xml data = data /\
  (forall w q,
      rx (client w) = data :: q ->
      len data <= MAX_DATA_IMG ->
      for_readable [client_socket] w =
        Ok false
           (logs [Recv client_socket MAX_DATA_IMG data;
                  Print Picture_received;
                  Sendall printer_socket data]
                 (set_rx client_socket q w))) /\
  (forall chunk, len chunk = 25000000 -> modify_xml chunk = chunk) /\
  (forall w seg q,
      rx (client w) = seg :: q ->
      len seg = 25000000 ->
      exists head tail w1 w2,
        seg = head ++ tail /\
        for_readable [client_socket] w = Ok false w1 /\
        trace w1 = trace w ++ [Recv client_socket MAX_DATA_IMG head;
                               Print Picture_received;
                               Sendall printer_socket head] /\
        for_readable [client_socket] w1 = Ok false w2 /\
        trace w2 = trace w1 ++ [Recv client_socket MAX_DATA_IMG tail;
                                Print Picture_received;
                                Sendall printer_socket tail] /\
        rx (client w2) = q).
Proof.
  intros H.
  assert (P : forall chunk, MAX_DATA_XML < len chunk ->
                            modify_xml chunk = chunk).
  { intros chunk Hc. unfold modify_xml.
    now rewrite modify_xml_with_picture. }
  split; [now apply modify_xml_with_picture|]. split; [now apply P|].
  split; [|split].
  - intros w q Hrx Hcap.
    destruct data as [|x seg];
      [unfold len, MAX_DATA_XML in H; simpl in H; lia|].
    apply (for_readable_picture client_socket (x :: seg) q w); [|exact H].
    cbn [conn_of read_cap]. rewrite Hrx. now apply recv_from_whole.
  - intros chunk Hc. apply P. unfold MAX_DATA_XML. lia.
  - intros w seg q Hrx Hlen.
    destruct (client_segment_25MB w seg q Hrx Hlen)
      as (head & tail & w1 & w2 & E & _ & F1 & T1 & F2 & T2 & Hq).
    now exists head, tail, w1, w2.
Qed.

Lemma modify_xml_picture_witness :
  let data := repeat x00 (Z.to_nat 50001) in
  MAX_DATA_XML < len data /\
  (modify_xml_with bytes_find data = (data, [Picture_received]) /\
   modify_xml data = data /\
   (forall w q,
       rx (client w) = data :: q ->
       len data <= MAX_DATA_IMG ->
       for_readable [client_socket] w =
         Ok false
            (logs [Recv client_socket MAX_DATA_IMG data;
                   Print Picture_received;
                   Sendall printer_socket data]
                  (set_rx client_socket q w))) /\
   (forall chunk, len chunk = 25000000 -> modify_xml chunk = chunk) /\
   (forall w seg q,
       rx (client w) = seg :: q ->
       len seg = 25000000 ->
       exists head tail w1 w2,
         seg = head ++ tail /\
         for_readable [client_socket] w = Ok false w1 /\
         trace w1 = trace w ++ [Recv client_socket MAX_DATA_IMG head;
                                Print Picture_received;
                                Sendall printer_socket head] /\
         for_readable [client_socket] w1 = Ok false w2 /\
         trace w2 = trace w1 ++ [Recv client_socket MAX_DATA_IMG tail;
                                 Print Picture_received;
                                 Sendall printer_socket tail] /\
         rx (client w2) = q)).
Proof.
  intros data.
  assert (L : MAX_DATA_XML < len data).
  { subst data. unfold len. rewrite repeat_length.
    rewrite Z2Nat.id by lia. reflexivity. }
  split; [exact L|].
  exact (modify_xml_picture bytes_find data L).
Defined.

(** A chunk read from the printer is never longer than [MAX_DATA_XML],
    so it is always searched: one that contains the closing tag reaches
    the client with the directive inserted. *)
Lemma printer_chunk_rewritten w x seg q pre post :
  rx (printer w) = (x :: seg) :: q ->
  len (x :: seg) <= MAX_DATA_XML ->
  first_occurrence (x :: seg) END_TAG pre post ->
  for_readable [printer_socket] w =
    Ok false
       (logs [Recv printer_socket MAX_DATA_XML (x :: seg);
              Print (XML_content (x :: seg));
              Print (XML_modified (pre ++ NEW_LINE ++ END_TAG ++ post));
              Sendall client_socket (pre ++ NEW_LINE ++ END_TAG ++ post)]
             (set_rx printer_socket q w)).
Proof.
  intros Hrx Hlen F.
  rewrite (for_readable_chunk printer_socket [] x seg q w Hrx Hlen).
  unfold modify_xml_log, modify_xml.
  rewrite (modify_xml_with_inserts _ pre post Hlen F).
  destruct w; cbn [fst snd print_all for_readable sock_dst read_cap];
    unfold bind, emit, socket_write, emit, ret, logs, log, set_rx, set_conn;
    cbn [trace]; now rewrite <- !app_assoc.
Qed.

(** C1 (the code departs from the claim). [client_thread] passes every
    chunk to [modify_xml], whichever socket it was read from: a chunk
    from the printer that contains [</print>] reaches the client with the
    directive inserted, not as it was read. *)
Theorem printer_chunk_is_rewritten :
  exists w',
    final_world (exchange printer_reply) = Some w' /\
    trace w' =
      [Recv printer_socket MAX_DATA_XML (b "<status>idle</status></print>");
       Print (XML_content (b "<status>idle</status></print>"));
       Print (XML_modified
                (b "<status>idle</status>" ++ NEW_LINE ++ b "</print>"));
       Sendall client_socket
               (b "<status>idle</status>" ++ NEW_LINE ++ b "</print>")] /\
    b "<status>idle</status>" ++ NEW_LINE ++ b "</print>"
      <> b "<status>idle</status></print>".
Proof.
  eexists. split; [vm_compute; reflexivity|].
  split; [vm_compute; reflexivity|]. vm_compute. discriminate.
Qed.

(* ------------------------------------------------------------------ *)
(** *** Cancellation inside the multiplexer *)

(** Polls during which neither socket is readable and no signal arrives,
    then the poll that brings the signal: [socket_wait_readable] falls out
    of its loop and returns [None]. *)
Lemma socket_wait_readable_cancelled (idle : list (poll sock)) p later :
  Forall (fun p0 => sigterm p0 = false /\
                    ready p0 client_socket = false /\
                    ready p0 printer_socket = false) idle ->
  sigterm p = true ->
  ready p client_socket = false ->
  ready p printer_socket = false ->
  socket_wait_readable [client_socket; printer_socket] false
                       (idle ++ p :: later)
  = (Returned None, true, later).
Proof.
  intros Hidle Hsig Hc Hp. induction Hidle as [|p0 idle (Hs0 & Hc0 & Hp0) _ IH].
  - simpl. rewrite Hc, Hp, Hsig. now destruct later.
  - simpl. now rewrite Hc0, Hp0, Hs0.
Qed.

(** A session that is idle in the multiplexer when the signal arrives
    does not reach [socket_close]: iterating the [None] it is handed
    raises [TypeError], and the [with] blocks close both sockets as they
    are. *)
Lemma cancelled_in_multiplexer_raises (w : world) idle p later :
  stop_event w = false ->
  env w = idle ++ p :: later ->
  Forall (fun p0 => sigterm p0 = false /\
                    ready p0 client_socket = false /\
                    ready p0 printer_socket = false) idle ->
  sigterm p = true ->
  ready p client_socket = false ->
  ready p printer_socket = false ->
  client_thread w =
    Raised TypeError
      (closed_by client_socket
         (closed_by printer_socket
            {| stop_event := true; env := later; client := client w;
               printer := printer w; trace := trace w ++ [Connect] |})).
Proof.
  intros Hstop Henv Hidle Hsig Hc Hp.
  unfold client_thread. apply with_socket_Raised.
  apply bind_Raised. apply with_socket_Raised.
  change ((exchange ;;; socket_close printer_socket) (log Connect w) =
          Raised TypeError
            {| stop_event := true; env := later; client := client w;
               printer := printer w; trace := trace w ++ [Connect] |}).
  apply bind_Raised. unfold exchange. cbn [forwarding].
  unfold bind at 1. unfold is_set. cbn [log stop_event]. rewrite Hstop.
  cbn [negb andb]. unfold bind at 1, wait_readable.
  cbn [log stop_event env]. rewrite Hstop, Henv.
  rewrite (socket_wait_readable_cancelled idle p later Hidle Hsig Hc Hp).
  reflexivity.
Qed.

(** C2 (the code departs from the claim). The signal arrives while the
    session waits in the multiplexer with nothing to read:
    [client_thread] ends with [TypeError]; neither socket is shut for
    writing or drained, both are closed by their [with] blocks with the
    client's data unread. *)
Theorem cancelled_session_raises :
  exists w',
    client_thread cancelled_while_idle = Raised TypeError w' /\
    stop_event w' = true /\
    trace w' = [Connect; Close printer_socket; Close client_socket] /\
    printer w' = {| rx := []; shut_wr := false; closed := true |} /\
    client w' = {| rx := [b "<print>"]; shut_wr := false; closed := true |}.
Proof.
  eexists. split; [vm_compute; reflexivity|].
  repeat split.
Qed.

End SessionProps.

(* ================================================================== *)
(** ** The listener *)

Module ListenerProps.
Import Listener ListenerSpec.

Lemma has_terminated_In t w : has_terminated t w = true <-> In t (terminated w).
Proof.
  unfold has_terminated. rewrite existsb_exists. split.
  - intros (x & Hin & E). apply Nat.eqb_eq in E. now subst.
  - intros Hin. exists t. split; [exact Hin | apply Nat.eqb_refl].
Qed.

(** The prune keeps the threads that have not ended, and changes nothing. *)
Lemma alive_only_spec l w :
  alive_only l w = Ok (filter (fun t => negb (has_terminated t w)) l) w.
Proof.
  induction l as [|t l IH]; [reflexivity|].
  cbn [alive_only filter]. unfold bind at 1, is_alive.
  unfold bind at 1. rewrite IH. unfold ret.
  now destruct (negb (has_terminated t w)).
Qed.

(** The joins are recorded in order; afterwards the joined threads have
    ended, and no other thread has been added to those that had. *)
Lemma join_all_spec l :
  forall w, exists w',
    join_all l w = Ok tt w' /\
    trace w' = trace w ++ map Join l /\
    stop_event w' = stop_event w /\
    started w' = started w /\
    (forall t, In t (terminated w') <-> In t (terminated w) \/ In t l).
Proof.
  induction l as [|t l IH]; intros w.
  - exists w. simpl. rewrite app_nil_r. repeat split; tauto.
  - cbn [join_all]. unfold bind at 1, join.
    set (w1 := log (Join t) _).
    destruct (IH w1) as (w' & -> & Htr & Hstop & Hst & Hterm).
    exists w'. split; [reflexivity|].
    split; [|split; [exact Hstop | split; [exact Hst|]]].
    + rewrite Htr. subst w1. simpl. now rewrite <- app_assoc.
    + intros t'. rewrite Hterm. subst w1. simpl.
      destruct (has_terminated t w) eqn:E.
      * apply has_terminated_In in E. split; [tauto|].
        intros [H|[<-|H]]; tauto.
      * rewrite in_app_iff. simpl. tauto.
Qed.

(** One turn of the accept loop after a connection has been accepted:
    the new thread joins the list, the sessions that have ended leave it. *)
Lemma accounted_after_prune ends l w ended later :
  accounted ends l w ->
  finishing w = ended :: later ->
  forall w',
    stop_event w' = stop_event w ->
    started w' = S (started w) ->
    finishing w' = later ->
    terminated w' =
      terminated w ++ filter (fun t => t <? S (started w))%nat ended ->
    accounted ends
      (filter (fun t => negb (has_terminated t w')) (l ++ [started w])) w'.
Proof.
  intros (Hall & Hterm & seen & Hseen) Hfin w' _ Hst Hfin' Hterm'.
  split; [|split].
  - intros t Ht. rewrite Hst in Ht.
    destruct (has_terminated t w') eqn:E.
    + right. now apply has_terminated_In.
    + left. apply filter_In. split; [|now rewrite E].
      apply in_app_iff. destruct (Nat.eq_dec t (started w)) as [->|Hne].
      * right. now left.
      * left. destruct (Hall t) as [H|H]; [lia | exact H |].
        exfalso. assert (In t (terminated w')) as H'
            by (rewrite Hterm'; apply in_app_iff; now left).
        apply has_terminated_In in H'. congruence.
  - intros t Ht. rewrite Hterm' in Ht. apply in_app_iff in Ht as [Ht|Ht].
    + now apply Hterm.
    + apply filter_In in Ht as [Ht _]. rewrite Hseen, Hfin.
      rewrite concat_app. apply in_app_iff. right. simpl.
      apply in_app_iff. now left.
  - exists (seen ++ [ended]). rewrite Hfin', <- app_assoc. simpl.
    now rewrite Hseen, Hfin.
Qed.

Lemma accounted_no_news ends l w w' :
  accounted ends l w ->
  started w' = S (started w) ->
  finishing w = [] ->
  finishing w' = [] ->
  terminated w' = terminated w ->
  accounted ends
    (filter (fun t => negb (has_terminated t w')) (l ++ [started w])) w'.
Proof.
  intros (Hall & Hterm & seen & Hseen) Hst Hfin Hfin' Hterm'.
  split; [|split].
  - intros t Ht. rewrite Hst in Ht.
    destruct (has_terminated t w') eqn:E.
    + right. now apply has_terminated_In.
    + left. apply filter_In. split; [|now rewrite E].
      apply in_app_iff. destruct (Nat.eq_dec t (started w)) as [->|Hne].
      * right. now left.
      * left. destruct (Hall t) as [H|H]; [lia | exact H |].
        exfalso. rewrite <- Hterm' in H.
        apply has_terminated_In in H. congruence.
  - intros t Ht. rewrite Hterm' in Ht. now apply Hterm.
  - exists seen. now rewrite Hfin', Hseen, Hfin.
Qed.

(** Evaluate the fields of a world that is given as a record. *)
Local Ltac fields :=
  unfold log; cbn [stop_event env finishing started terminated trace].

Lemma accept_loop_spec ends fuel :
  forall l w,
    (length (env w) < fuel)%nat ->
    accounted ends l w ->
    match accept_loop fuel l w with
    | Ok l' w' =>
        stop_event w' = true /\
        accounted ends l' w' /\
        exists tr, trace w' = trace w ++ tr ++ [Is_set true] /\
                   Forall serving tr
    | Hang w' => stop_event w' = false
    | Raised _ _ | OutOfFuel => False
    end.
Proof.
  induction fuel as [|fuel IH]; intros l w Hlen Hacc; [lia|].
  destruct w as [stop polls ends_left n ended_so_far tr0].
  cbn [env] in Hlen. cbn [accept_loop]. unfold bind at 1, is_set.
  fields. destruct stop.
  - unfold ret. split; [reflexivity|]. split; [exact Hacc|].
    exists []. split; [reflexivity | constructor].
  - unfold bind at 1, wait_readable. fields.
    destruct (socket_wait_readable [listener] false polls)
      as [[r stop'] env'] eqn:E.
    pose proof (socket_wait_readable_spec _ _ _ _ _ _ E) as [_ Hr].
    destruct r as [v|]; [|exact (proj1 Hr)].
    unfold bind at 1, is_set. fields.
    destruct stop'.
    + unfold ret. split; [reflexivity|]. split; [exact Hacc|].
      exists [Is_set false].
      split; [fields; now rewrite <- app_assoc|].
      constructor; [now left | constructor].
    + destruct v as [readable|]; [|discriminate].
      destruct Hr as (_ & _ & Hshort).
      unfold bind at 1, emit. unfold bind at 1, start_thread.
      unfold bind at 1, sessions_progress. fields.
      assert (Hturn : Forall serving
                        [Is_set false; Is_set false; Accept; Start n]).
      { constructor; [now left|]. constructor; [now left|].
        constructor; [right; now left|].
        constructor; [right; right; now exists n | constructor]. }
      destruct ends_left as [|ended later]; fields;
        unfold bind at 1; rewrite alive_only_spec;
        match goal with
        | |- match accept_loop fuel ?l' ?w' with _ => _ end =>
            pose proof (IH l' w') as IH';
            assert (Hacc' : accounted ends l' w');
            [ first [ now apply (accounted_no_news ends l _ _ Hacc)
                    | now apply (accounted_after_prune ends l _ ended later Hacc) ]
            | specialize (IH' ltac:(cbn [env]; lia) Hacc');
              destruct (accept_loop fuel l' w') as [l2 w2|e w2|w2|];
              try exact IH' ]
        end;
        destruct IH' as (Hstop & Hacc2 & tr & Htr & Hserving);
        (split; [exact Hstop|]); (split; [exact Hacc2|]);
        exists ([Is_set false; Is_set false; Accept; Start n] ++ tr);
        (split; [|now apply Forall_app]);
        rewrite Htr; fields; now rewrite <- !app_assoc.
Qed.

(** The listener from the head of its loop to the release of its socket:
    it returns only with the stop event set, having joined the threads it
    still held, and by then every thread it started has ended. *)
Lemma serve_spec ends l w :
  accounted ends l w ->
  match serve l w with
  | Ok _ w' =>
      stop_event w' = true /\
      (forall t, (t < started w')%nat -> In t (terminated w')) /\
      exists tr joined,
        trace w' = trace w ++ tr ++ [Is_set true] ++ map Join joined
                           ++ [Close_listener] /\
        Forall serving tr /\
        (forall t, (t < started w')%nat ->
                   In t joined \/ In t (concat ends))
  | Hang w' => stop_event w' = false
  | Raised _ _ | OutOfFuel => False
  end.
Proof.
  intros Hacc. unfold serve, bind at 1.
  pose proof (accept_loop_spec ends (S (length (env w))) l w
                ltac:(lia) Hacc) as H.
  destruct (accept_loop (S (length (env w))) l w) as [l' w1|e w1|w1|];
    try exact H.
  destruct H as (Hstop & (Hall & Hterm & _) & tr & Htr & Hserving).
  unfold bind at 1.
  destruct (join_all_spec l' w1) as (w2 & -> & Htr2 & Hstop2 & Hst2 & Hterm2).
  unfold emit. fields. split; [congruence|]. split.
  - intros t Ht. apply Hterm2. rewrite Hst2 in Ht.
    destruct (Hall t Ht); tauto.
  - exists tr, l'. split; [|split; [exact Hserving|]].
    + rewrite Htr2, Htr. now rewrite <- !app_assoc.
    + intros t Ht. rewrite Hst2 in Ht.
      destruct (Hall t Ht) as [H|H]; [now left | right; now apply Hterm].
Qed.

(** Past the first occurrence of [x], every later split at [x] leaves a
    part of what followed the first. *)
Lemma split_after_first {A} (x : A) l1 :
  forall l2 before after,
    ~ In x l1 ->
    l1 ++ x :: l2 = before ++ x :: after ->
    exists mid, l2 = mid ++ after.
Proof.
  induction l1 as [|a l1 IH]; intros l2 before after Hnot E.
  - destruct before as [|y before]; simpl in E.
    + injection E as <-. now exists [].
    + injection E as _ ->. exists (before ++ [x]).
      now rewrite <- app_assoc.
  - destruct before as [|y before]; simpl in E.
    + injection E as -> _. exfalso. apply Hnot. now left.
    + injection E as _ E. apply (IH _ _ _ (fun H => Hnot (or_intror H)) E).
Qed.

Lemma serving_not_stop tr : Forall serving tr -> ~ In (Is_set true) tr.
Proof.
  intros H Hin. rewrite Forall_forall in H.
  destruct (H _ Hin) as [E|[E|[t E]]]; discriminate.
Qed.

(* ------------------------------------------------------------------ *)
(** *** The listener against its script *)

Lemma accepted_app tr1 tr2 :
  accepted (tr1 ++ tr2) = (accepted tr1 + accepted tr2)%nat.
Proof.
  induction tr1 as [|e tr1 IH]; [reflexivity|].
  destruct e; simpl; now rewrite ?IH.
Qed.

Lemma turns_S t k : turns t (S k) = turn t ++ turns (S t) k.
Proof. reflexivity. Qed.

Lemma accepted_turns k : forall t, accepted (turns t k) = k.
Proof.
  induction k as [|k IH]; intros t; [reflexivity|].
  rewrite turns_S, accepted_app, IH. reflexivity.
Qed.

Lemma accepted_joins l : accepted (map Join l) = 0%nat.
Proof. induction l; simpl; congruence. Qed.

(** Polls that report no connection and bring no signal are passed
    over by the wait. *)
Lemma socket_wait_readable_skips idle rest :
  Forall (fun q : poll sock =>
            ready q listener = false /\ sigterm q = false) idle ->
  socket_wait_readable [listener] false (idle ++ rest) =
  socket_wait_readable [listener] false rest.
Proof.
  induction 1 as [|q idle [Hr Hs] _ IH]; [reflexivity|].
  cbn [app socket_wait_readable filter]. now rewrite Hr, Hs.
Qed.

(** A script without a signal either holds no request, or splits at its
    first one. *)
Lemma first_request (polls : list (poll sock)) :
  Forall (fun q => sigterm q = false) polls ->
  (Forall (fun q => ready q listener = false /\ sigterm q = false) polls /\
   requests polls = []) \/
  exists idle q rest,
    polls = idle ++ q :: rest /\
    Forall (fun q => ready q listener = false /\ sigterm q = false) idle /\
    ready q listener = true /\ sigterm q = false /\
    Forall (fun q => sigterm q = false) rest /\
    requests polls = q :: requests rest.
Proof.
  induction 1 as [|q polls Hq Hall IH].
  - left. now split.
  - destruct (ready q listener) eqn:Hr.
    + right. exists [], q, polls. unfold requests. simpl. rewrite Hr.
      repeat split; auto.
    + destruct IH as [[Hidle Hreq] | (idle & q0 & rest & -> & Hidle & H0)].
      * left. split; [now constructor|]. unfold requests in *. simpl.
        now rewrite Hr.
      * right. exists (q :: idle), q0, rest.
        destruct H0 as (Hr0 & Hs0 & Hrest & Hreq).
        split; [reflexivity|]. split; [now constructor|].
        split; [exact Hr0|]. split; [exact Hs0|]. split; [exact Hrest|].
        unfold requests in *. simpl. now rewrite Hr.
Qed.

(** The accept loop on a script that brings the signal in poll [p]: it
    accepts the requests reported before [p] and no other, whether or not
    [p] reports one too, takes no poll after [p], and leaves with the
    stop event found set by the check after the wait. *)
Lemma accept_loop_until_signal p later fuel :
  forall before l w,
    stop_event w = false ->
    env w = before ++ p :: later ->
    Forall (fun q => sigterm q = false) before ->
    sigterm p = true ->
    (length (env w) < fuel)%nat ->
    exists l' w',
      accept_loop fuel l w = Ok l' w' /\
      env w' = later /\
      started w' = (started w + length (requests before))%nat /\
      trace w' = trace w ++ turns (started w) (length (requests before))
                         ++ [Is_set false; Is_set true].
Proof.
  induction fuel as [|fuel IH]; intros before l w Hstop Henv Hquiet Hsig Hlen;
    [lia|].
  destruct w as [stop polls ends_left n ended_so_far tr0].
  cbn [stop_event env started trace] in *. subst stop polls.
  cbn [accept_loop]. unfold bind at 1, is_set. fields.
  unfold bind at 1, wait_readable. fields.
  destruct (first_request before Hquiet)
    as [[Hidle Hreq] | (idle & q & rest & -> & Hidle & Hr & Hs & Hrest & Hreq)].
  - rewrite (socket_wait_readable_skips before (p :: later) Hidle).
    cbn [socket_wait_readable filter]. rewrite Hsig. cbn [orb].
    assert (Hwait : exists v,
               (if ready p listener then [listener] else []) = v /\
               match v with
               | _ :: _ => (Returned (Some v), true, later)
               | [] => socket_wait_readable [listener] true later
               end = (Returned (match v with [] => None | _ => Some v end),
                      true, later)).
    { destruct (ready p listener); eexists; (split; [reflexivity|]);
        [reflexivity | now destruct later]. }
    destruct Hwait as (v & -> & ->).
    unfold bind at 1, is_set. fields. unfold ret.
    eexists _, _. split; [reflexivity|]. rewrite Hreq. fields.
    split; [reflexivity|]. split; [now rewrite Nat.add_0_r|].
    now rewrite <- app_assoc.
  - rewrite <- app_assoc.
    rewrite (socket_wait_readable_skips idle _ Hidle).
    cbn [app socket_wait_readable filter]. rewrite Hr, Hs. cbn [orb].
    unfold bind at 1, is_set. fields.
    unfold bind at 1, emit. unfold bind at 1, start_thread.
    unfold bind at 1, sessions_progress. fields.
    rewrite Hreq. cbn [length]. rewrite turns_S.
    rewrite !length_app in Hlen. cbn [length] in Hlen.
    destruct ends_left as [|ended ends_left]; fields;
      unfold bind at 1; rewrite alive_only_spec;
      match goal with
      | |- exists l' w', accept_loop fuel ?l1 ?w1 = _ /\ _ =>
          destruct (IH rest l1 w1 eq_refl eq_refl Hrest Hsig)
            as (l' & w' & -> & Henv' & Hst' & Htr');
          [fields; rewrite length_app; cbn [length]; lia|];
          exists l', w'; (split; [reflexivity|]); (split; [exact Henv'|]);
          fields; (split; [rewrite Hst'; fields; lia|]);
          rewrite Htr'; fields; unfold turn;
          repeat (rewrite <- !app_assoc; simpl); reflexivity
      end.
Qed.

(** C6. The listener accepts no connection after a check has found the
    stop event set; it returns only once the stop event is set, and then
    every client thread it started has ended before it releases its
    socket: it has joined each one that had not ended by itself.  The
    handler that sets the stop event waits for the listener and then
    exits with status 0.  Against the script: when the signal arrives
    during the wait of poll [p], the listener accepts the requests
    reported before [p] and nothing else, whether or not [p] reports one
    too; it takes no poll after [p], joins the threads it holds and
    releases its socket.  Started with the stop event set, it accepts
    nothing and takes no poll. *)
Theorem listener_shutdown
        (stop : bool) (polls : list (poll sock)) (ends : list (list thread)) :
  match listener_thread (initial stop polls ends) with
  | Ok _ w' =>
      stop_event w' = true /\
      no_accept_after_stop (trace w') /\
      (forall t, (t < started w')%nat -> In t (terminated w')) /\
      exists tr joined,
        trace w' = Listen :: tr ++ [Is_set true] ++ map Join joined
                          ++ [Close_listener; Close_listener] /\
        Forall serving tr /\
        (forall t, (t < started w')%nat ->
                   In t joined \/ In t (concat ends))
  | Hang w' => stop_event w' = false
  | Raised _ _ | OutOfFuel => False
  end /\
  (forall (w : world) (client_thread_list : list thread),
   exists w',
     handle_exit (with_listener (serve client_thread_list)) w
       = Raised (SystemExit 0) w' /\
     exit_status (handle_exit (with_listener (serve client_thread_list)) w)
       = Some 0 /\
     trace w' = trace w ++ [Is_set true] ++ map Join client_thread_list
                        ++ [Close_listener; Close_listener]) /\
  (forall before p later,
      Forall (fun q => sigterm q = false) before ->
      sigterm p = true ->
      exists w' joined,
        listener_thread (initial false (before ++ p :: later) ends)
          = Ok tt w' /\
        env w' = later /\
        started w' = length (requests before) /\
        accepted (trace w') = length (requests before) /\
        trace w' = Listen :: turns 0%nat (length (requests before))
                          ++ [Is_set false; Is_set true]
                          ++ map Join joined
                          ++ [Close_listener; Close_listener]) /\
  (exists w',
      listener_thread (initial true polls ends) = Ok tt w' /\
      env w' = polls /\
      trace w' = [Listen; Is_set true; Close_listener; Close_listener]).
Proof.
  split; [|split; [|split]].
  - unfold listener_thread, with_listener, finally.
    change ((emit Listen ;;; serve []) (initial stop polls ends))
      with (serve [] (log Listen (initial stop polls ends))).
    assert (Hacc : accounted ends [] (log Listen (initial stop polls ends))).
    { split; [|split].
      - intros t Ht. simpl in Ht. lia.
      - intros t Ht. destruct Ht.
      - now exists []. }
    pose proof (serve_spec ends [] _ Hacc) as H.
    destruct (serve [] (log Listen (initial stop polls ends)))
      as [[] w1|e w1|w1|]; try exact H.
    destruct H as (Hstop & Hended & tr & joined & Htr & Hserving & Hjoined).
    unfold bind, emit, ret. fields. split; [exact Hstop|].
    assert (Htr' : trace w1 ++ [Close_listener] =
                   (Listen :: tr) ++ Is_set true
                     :: (map Join joined ++ [Close_listener; Close_listener])).
    { rewrite Htr. simpl. rewrite <- !app_assoc. simpl.
      now rewrite <- app_assoc. }
    split; [|split; [exact Hended|]].
    + intros before after E Hin. rewrite Htr' in E.
      apply split_after_first in E as [mid E].
      * assert (Hin' : In Accept (map Join joined
                                   ++ [Close_listener; Close_listener]))
          by (rewrite E; apply in_app_iff; now right).
        apply in_app_iff in Hin' as [Hin'|Hin'].
        -- apply in_map_iff in Hin' as (t & Ht & _). discriminate.
        -- simpl in Hin'. destruct Hin' as [H|[H|[]]]; discriminate.
      * intros [H|H]; [discriminate|].
        now apply (serving_not_stop tr).
    + exists tr, joined. split; [exact Htr'|]. now split.
  - intros w l.
    set (w1 := {| stop_event := true; env := env w;
                  finishing := finishing w; started := started w;
                  terminated := terminated w; trace := trace w |}).
    destruct (join_all_spec l (log (Is_set true) w1))
      as (w2 & Hjoin & Htr & _).
    assert (Hserve : with_listener (serve l) w1 =
                     Ok tt (log Close_listener (log Close_listener w2))).
    { unfold with_listener, finally, serve, bind at 1. cbn [accept_loop].
      unfold bind at 1, is_set. subst w1. cbn [stop_event].
      unfold ret. unfold bind at 1. now rewrite Hjoin. }
    exists (log Close_listener (log Close_listener w2)).
    assert (Hexit : handle_exit (with_listener (serve l)) w =
                    Raised (SystemExit 0)
                           (log Close_listener (log Close_listener w2))).
    { unfold handle_exit, bind at 1, Event_set. fold w1.
      now rewrite (bind_Ok _ _ _ _ _ Hserve). }
    rewrite Hexit. split; [reflexivity|]. split; [reflexivity|].
    fields. rewrite Htr. fields. subst w1. fields.
    rewrite <- !app_assoc. reflexivity.
  - intros before p later Hquiet Hsig.
    unfold listener_thread, with_listener, finally.
    change ((emit Listen ;;; serve [])
              (initial false (before ++ p :: later) ends))
      with (serve [] (log Listen (initial false (before ++ p :: later) ends))).
    set (w0 := log Listen (initial false (before ++ p :: later) ends)).
    destruct (accept_loop_until_signal p later (S (length (env w0)))
                before [] w0 eq_refl eq_refl Hquiet Hsig ltac:(lia))
      as (l' & w1 & Hloop & Henv & Hst & Htr).
    destruct (join_all_spec l' w1) as (w2 & Hjoin & Htr2 & _ & Hst2 & _).
    assert (Hserve : serve [] w0 = Ok tt (log Close_listener w2)).
    { unfold serve.
      rewrite (bind_Ok (fun w => accept_loop (S (length (env w))) [] w)
                 _ w0 l' w1 Hloop).
      now rewrite (bind_Ok _ _ _ _ _ Hjoin). }
    rewrite Hserve. unfold bind, emit, ret.
    assert (Henv2 : env w2 = env w1).
    { clear - Hjoin. revert w1 w2 Hjoin.
      induction l' as [|t l' IHl]; intros w1 w2 Hjoin.
      - now injection Hjoin as <-.
      - cbn [join_all] in Hjoin. unfold bind at 1, join in Hjoin.
        apply IHl in Hjoin. exact Hjoin. }
    exists (log Close_listener (log Close_listener w2)), l'. fields.
    split; [reflexivity|]. split; [congruence|].
    split; [rewrite Hst2, Hst; reflexivity|].
    rewrite Htr2, Htr. subst w0. fields. cbn [initial trace started app].
    split.
    + cbn [accepted].
      rewrite !accepted_app, accepted_turns, accepted_joins. simpl. lia.
    + repeat (rewrite <- !app_assoc; simpl). reflexivity.
  - eexists. split; [reflexivity|]. split; reflexivity.
Qed.

Lemma listener_shutdown_witness :
  let request : poll sock := {| ready := fun _ => true; sigterm := false |} in
  let signal : poll sock := {| ready := fun _ => true; sigterm := true |} in
  Forall (fun q => sigterm q = false) [request] /\
  sigterm signal = true /\
  exists w' joined,
    listener_thread (initial false ([request] ++ signal :: [request]) [])
      = Ok tt w' /\
    env w' = [request] /\
    started w' = 1%nat /\
    accepted (trace w') = 1%nat /\
    trace w' = Listen :: turns 0%nat 1
                      ++ [Is_set false; Is_set true]
                      ++ map Join joined
                      ++ [Close_listener; Close_listener].
Proof.
  intros request signal.
  assert (Hquiet : Forall (fun q : poll sock => sigterm q = false) [request])
    by (constructor; [reflexivity | constructor]).
  split; [exact Hquiet|]. split; [reflexivity|].
  destruct (listener_shutdown false [] []) as (_ & _ & H & _).
  exact (H [request] signal [request] Hquiet eq_refl).
Defined.

(* ------------------------------------------------------------------ *)
(** *** The stop event in the listener *)

















End ListenerProps.

(* ================================================================== *)
(** ** The stop event *)



(* ================================================================== *)
(** * Further properties *)

(* ================================================================== *)
(** ** The rewriter on any chunk *)

Lemma len_NEW_LINE : len NEW_LINE = 24.
Proof. reflexivity. Qed.

(** What [modify_xml_with bytes_find] comes to, by the size of the chunk
    and the presence of the closing tag. *)
Lemma modify_xml_cases data :
  (MAX_DATA_XML < len data /\
   modify_xml_with bytes_find data = (data, [Picture_received])) \/
  (len data <= MAX_DATA_XML /\ ~ contains data END_TAG /\
   modify_xml_with bytes_find data = (data, [XML_content data])) \/
  (len data <= MAX_DATA_XML /\
   exists pre post,
     first_occurrence data END_TAG pre post /\
     modify_xml_with bytes_find data =
       (pre ++ NEW_LINE ++ END_TAG ++ post,
        [XML_content data;
         XML_modified (pre ++ NEW_LINE ++ END_TAG ++ post)])).
Proof.
  destruct (Z.lt_ge_cases MAX_DATA_XML (len data)) as [Hbig|Hsmall].
  - left. split; [exact Hbig | now apply modify_xml_with_picture].
  - right.
    destruct (find_from_spec data END_TAG 0) as [[_ N] | (pre & post & _ & F)].
    + left. split; [exact Hsmall|]. split; [exact N|].
      now apply modify_xml_with_absent.
    + right. split; [exact Hsmall|]. exists pre, post. split; [exact F|].
      now apply modify_xml_with_inserts.
Qed.

(** X1. On every chunk, of any size and content, [modify_xml] returns
    the chunk itself or the chunk with the 24 bytes of the directive line
    put in at one place, before a [</print>]: no byte of the input is
    dropped, changed or moved. *)
Theorem modify_xml_keeps_or_inserts (data : bytes) :
  modify_xml data = data \/
  exists pre post,
    data = pre ++ END_TAG ++ post /\
    modify_xml data = pre ++ NEW_LINE ++ END_TAG ++ post /\
    len (modify_xml data) = len data + 24 /\
    len data <= MAX_DATA_XML.
Proof.
  unfold modify_xml.
  destruct (modify_xml_cases data)
    as [[_ ->] | [(_ & _ & ->) | (Hs & pre & post & F & ->)]];
    [now left | now left |].
  right. exists pre, post. destruct F as [E _]. cbn [fst].
  split; [exact E|]. split; [reflexivity|]. split; [|exact Hs].
  rewrite E, !len_app, len_NEW_LINE. lia.
Qed.

(** X2. In a rewritten descriptor the first [</print>] is the one that
    was first in the input, now right after the directive line: the
    insertion makes no occurrence of the tag that starts earlier. *)
Theorem modify_xml_first_tag (data pre post : bytes) :
  len data <= MAX_DATA_XML ->
  first_occurrence data END_TAG pre post ->
  first_occurrence (modify_xml data) END_TAG (pre ++ NEW_LINE) post.
Proof.
  intros Hs F. unfold modify_xml.
  rewrite (modify_xml_with_inserts data pre post Hs F). cbn [fst].
  apply first_occurrence_of_find.
  - now rewrite <- app_assoc.
  - rewrite len_app. apply bytes_find_after_insert.
    destruct F as [E M]. subst data.
    apply (bytes_find_first _ _ pre post). split; [reflexivity | exact M].
Qed.

Lemma modify_xml_first_tag_witness :
  len (b "<print></print>") <= MAX_DATA_XML /\
  first_occurrence (b "<print></print>") END_TAG (b "<print>") [] /\
  first_occurrence (modify_xml (b "<print></print>")) END_TAG
                   (b "<print>" ++ NEW_LINE) [].
Proof.
  assert (F : first_occurrence (b "<print></print>") END_TAG (b "<print>") [])
    by (apply first_occurrence_of_find; reflexivity).
  split; [discriminate|]. split; [exact F|].
  apply (modify_xml_first_tag (b "<print></print>") (b "<print>") []);
    [discriminate | exact F].
Defined.

(** X3. A second pass over a rewritten descriptor that is still no
    longer than the threshold inserts the directive line once more,
    before the same [</print>]: each pass adds a line. *)
Theorem modify_xml_second_pass (data pre post : bytes) :
  first_occurrence data END_TAG pre post ->
  len data + len NEW_LINE <= MAX_DATA_XML ->
  modify_xml (modify_xml data) =
    pre ++ NEW_LINE ++ NEW_LINE ++ END_TAG ++ post /\
  modify_xml (modify_xml data) <> modify_xml data.
Proof.
  intros F H. pose proof (modify_xml_twice data pre post F H) as T.
  split; [exact T|]. rewrite T. unfold modify_xml.
  rewrite (modify_xml_with_inserts data pre post); [|rewrite len_NEW_LINE in H; lia|exact F].
  cbn [fst]. intros E. apply (f_equal len) in E.
  rewrite !len_app, len_NEW_LINE in E. lia.
Qed.

Lemma modify_xml_second_pass_witness :
  first_occurrence (b "<print></print>") END_TAG (b "<print>") [] /\
  len (b "<print></print>") + len NEW_LINE <= MAX_DATA_XML /\
  modify_xml (modify_xml (b "<print></print>")) =
    b "<print>" ++ NEW_LINE ++ NEW_LINE ++ END_TAG ++ [] /\
  modify_xml (modify_xml (b "<print></print>"))
    <> modify_xml (b "<print></print>").
Proof.
  assert (F : first_occurrence (b "<print></print>") END_TAG (b "<print>") [])
    by (apply first_occurrence_of_find; reflexivity).
  split; [exact F|]. split; [discriminate|].
  apply (modify_xml_second_pass (b "<print></print>") (b "<print>") []);
    [exact F | discriminate].
Defined.

(** X4. A descriptor within 24 bytes of the threshold is rewritten once
    and then no more: the inserted line takes it over the threshold, so
    the next pass takes it for a picture and returns it as it is. *)
Theorem modify_xml_second_pass_over_threshold (data : bytes) :
  len data <= MAX_DATA_XML ->
  MAX_DATA_XML < len data + 24 ->
  contains data END_TAG ->
  modify_xml data <> data /\
  modify_xml (modify_xml data) = modify_xml data /\
  modify_xml_log (modify_xml data) = [Picture_received].
Proof.
  intros Hs Hb C.
  assert (Hl : len (modify_xml data) = len data + 24).
  { unfold modify_xml.
    destruct (modify_xml_cases data)
      as [[Hbig _] | [(_ & N & _) | (_ & pre & post & F & ->)]];
      [lia | contradiction |].
    cbn [fst]. destruct F as [-> _]. rewrite !len_app, len_NEW_LINE. lia. }
  assert (Hbig : MAX_DATA_XML < len (modify_xml data)) by lia.
  split; [|split].
  - intros E'. rewrite E' in Hl. lia.
  - unfold modify_xml at 1. now rewrite modify_xml_with_picture.
  - unfold modify_xml_log. now rewrite modify_xml_with_picture.
Qed.

Lemma modify_xml_second_pass_over_threshold_witness :
  let data := repeat x00 (Z.to_nat 49992) ++ END_TAG in
  len data <= MAX_DATA_XML /\
  MAX_DATA_XML < len data + 24 /\
  contains data END_TAG /\
  modify_xml data <> data /\
  modify_xml (modify_xml data) = modify_xml data /\
  modify_xml_log (modify_xml data) = [Picture_received].
Proof.
  intros data.
  assert (L : len data = 50000).
  { subst data. rewrite len_app. unfold len at 1. rewrite repeat_length.
    rewrite Z2Nat.id by lia. reflexivity. }
  assert (C : contains data END_TAG).
  { exists (repeat x00 (Z.to_nat 49992)), []. subst data.
    now rewrite app_nil_r. }
  assert (H1 : len data <= MAX_DATA_XML) by (rewrite L; discriminate).
  assert (H2 : MAX_DATA_XML < len data + 24) by (rewrite L; reflexivity).
  split; [exact H1|]. split; [exact H2|]. split; [exact C|].
  exact (modify_xml_second_pass_over_threshold data H1 H2 C).
Defined.

(** X5. [modify_xml] prints [XML modified] exactly when it returns
    something else than it was given, and what it prints there is what it
    returns. *)
Theorem modify_xml_log_tells_change (data : bytes) :
  (modify_xml data <> data <->
   In (XML_modified (modify_xml data)) (modify_xml_log data)) /\
  (forall new_data,
      In (XML_modified new_data) (modify_xml_log data) ->
      new_data = modify_xml data).
Proof.
  unfold modify_xml, modify_xml_log.
  destruct (modify_xml_cases data)
    as [[_ ->] | [(_ & _ & ->) | (_ & pre & post & F & ->)]]; cbn [fst snd].
  - split; [split; [congruence|] | ]; simpl; intuition discriminate.
  - split; [split; [congruence|] | ]; simpl; intuition discriminate.
  - split.
    + split; [intros _; simpl; auto|]. intros _ E.
      apply (f_equal len) in E. destruct F as [-> _].
      rewrite !len_app, len_NEW_LINE in E. lia.
    + intros new_data [H|[H|[]]]; [discriminate | now injection H].
Qed.

Lemma not_contains_of_find data sub :
  bytes_find data sub = -1 -> ~ contains data sub.
Proof.
  unfold bytes_find. intros Hf.
  destruct (find_from_spec data sub 0) as [[_ N] | (pre & post & Hp & _)].
  - exact N.
  - pose proof (len_nonneg pre). lia.
Qed.

(** X16. The rewriter sees one chunk at a time.  When the closing tag
    lies across two chunks, in neither of them whole, both chunks are
    returned as they are, although the same bytes in one chunk would have
    been rewritten: what is written on is the descriptor without the
    directive. *)
Theorem modify_xml_split_tag (first second : bytes) :
  ~ contains first END_TAG ->
  ~ contains second END_TAG ->
  contains (first ++ second) END_TAG ->
  len (first ++ second) <= MAX_DATA_XML ->
  modify_xml first ++ modify_xml second = first ++ second /\
  modify_xml (first ++ second) <> first ++ second.
Proof.
  intros N1 N2 C Hs. pose proof (len_nonneg first). pose proof (len_nonneg second).
  rewrite len_app in Hs. split.
  - unfold modify_xml.
    rewrite (modify_xml_with_absent first), (modify_xml_with_absent second);
      [reflexivity | lia | exact N2 | lia | exact N1].
  - unfold modify_xml.
    destruct (modify_xml_cases (first ++ second))
      as [[Hbig _] | [(_ & N & _) | (_ & pre & post & F & ->)]];
      [rewrite len_app in Hbig; lia | contradiction |].
    cbn [fst]. intros E. apply (f_equal len) in E. destruct F as [E' _].
    rewrite E' in E. rewrite !len_app, len_NEW_LINE in E. lia.
Qed.

Lemma modify_xml_split_tag_witness :
  ~ contains (b "<print></pri") END_TAG /\
  ~ contains (b "nt>") END_TAG /\
  contains (b "<print></pri" ++ b "nt>") END_TAG /\
  len (b "<print></pri" ++ b "nt>") <= MAX_DATA_XML /\
  modify_xml (b "<print></pri") ++ modify_xml (b "nt>")
    = b "<print></pri" ++ b "nt>" /\
  modify_xml (b "<print></pri" ++ b "nt>") <> b "<print></pri" ++ b "nt>".
Proof.
  assert (N1 : ~ contains (b "<print></pri") END_TAG)
    by (apply not_contains_of_find; reflexivity).
  assert (N2 : ~ contains (b "nt>") END_TAG)
    by (apply not_contains_of_find; reflexivity).
  assert (C : contains (b "<print></pri" ++ b "nt>") END_TAG)
    by (exists (b "<print>"), []; reflexivity).
  assert (L : len (b "<print></pri" ++ b "nt>") <= MAX_DATA_XML)
    by discriminate.
  split; [exact N1|]. split; [exact N2|]. split; [exact C|]. split; [exact L|].
  exact (modify_xml_split_tag _ _ N1 N2 C L).
Defined.

(* ================================================================== *)
(** ** The multiplexer on any script *)

Lemma socket_wait_readable_stopped {Sock} (socket_list : list Sock) env :
  socket_wait_readable socket_list true env = (Returned None, true, env).
Proof. now destruct env. Qed.

(** X6. Called with the stop event clear, [socket_wait_readable] takes
    the polls in which nothing is readable and no signal arrives, and
    then: returns the readable sockets of the first poll that has any
    (never an empty list), or returns [None] at the first poll that
    brings the signal with nothing readable, or waits for ever when the
    script ends first.  Called with the stop event set it returns [None]
    at once and takes no poll. *)
Theorem socket_wait_readable_outcome
        {Sock} (socket_list : list Sock) (env : list (poll Sock)) :
  match socket_wait_readable socket_list false env with
  | (Returned (Some readable), stop', env') =>
      exists idle p,
        env = idle ++ p :: env' /\
        Forall (SessionTrace.idle_poll socket_list) idle /\
        readable = filter (ready p) socket_list /\
        readable <> [] /\
        stop' = sigterm p
  | (Returned None, stop', env') =>
      exists idle p,
        env = idle ++ p :: env' /\
        Forall (SessionTrace.idle_poll socket_list) idle /\
        filter (ready p) socket_list = [] /\
        sigterm p = true /\
        stop' = true
  | (Polls_forever, stop', env') =>
      Forall (SessionTrace.idle_poll socket_list) env /\
      env' = [] /\ stop' = false
  end /\
  socket_wait_readable socket_list true env = (Returned None, true, env).
Proof.
  split; [|apply socket_wait_readable_stopped].
  induction env as [|p env IH]; [simpl; auto|].
  cbn [socket_wait_readable].
  destruct (filter (ready p) socket_list) as [|s readable] eqn:F.
  - cbn [orb]. destruct (sigterm p) eqn:Hsig.
    + rewrite socket_wait_readable_stopped.
      exists [], p. repeat split; auto.
    + destruct (socket_wait_readable socket_list false env)
        as [[[[readable|]|] stop'] env'].
      * destruct IH as (idle & p0 & -> & Hidle & Hr & Hne & Hs).
        exists (p :: idle), p0. repeat split; auto.
        constructor; [now split | exact Hidle].
      * destruct IH as (idle & p0 & -> & Hidle & Hr & Hsg & Hs).
        exists (p :: idle), p0. repeat split; auto.
        constructor; [now split | exact Hidle].
      * destruct IH as (Hidle & -> & ->). repeat split; auto.
        constructor; [now split | exact Hidle].
  - exists [], p. rewrite F. repeat split; auto. discriminate.
Qed.

(* ================================================================== *)
(** ** The session on any script *)

Module SessionLaws.
Import Session SessionSpec SessionTrace SessionProps.

(* ------------------------------------------------------------------ *)
(** *** What is written is what was read *)

Lemma received_from_app s tr1 tr2 :
  received_from s (tr1 ++ tr2) = received_from s tr1 ++ received_from s tr2.
Proof.
  induction tr1 as [|e tr1 IH]; [reflexivity|].
  destruct e; simpl; rewrite ?IH; try reflexivity.
  now destruct (sock_is s0 s && negb (is_empty data)).
Qed.

Lemma sent_to_app s tr1 tr2 :
  sent_to s (tr1 ++ tr2) = sent_to s tr1 ++ sent_to s tr2.
Proof.
  induction tr1 as [|e tr1 IH]; [reflexivity|].
  destruct e; simpl; rewrite ?IH; try reflexivity.
  now destruct (sock_is s0 s).
Qed.

Lemma relayed_nil : relayed [].
Proof. intros s. reflexivity. Qed.

Lemma relayed_app tr1 tr2 : relayed tr1 -> relayed tr2 -> relayed (tr1 ++ tr2).
Proof.
  intros H1 H2 s.
  now rewrite sent_to_app, received_from_app, map_app, H1, H2.
Qed.

Lemma relays_refl w : relays w w.
Proof. exists []. split; [now rewrite app_nil_r | apply relayed_nil]. Qed.

Lemma relays_trans w1 w2 w3 : relays w1 w2 -> relays w2 w3 -> relays w1 w3.
Proof.
  intros (t1 & E1 & R1) (t2 & E2 & R2). exists (t1 ++ t2). split.
  - now rewrite E2, E1, app_assoc.
  - now apply relayed_app.
Qed.

Lemma print_all_eq ls w : print_all ls w = Ok tt (logs (map Print ls) w).
Proof.
  revert w. induction ls as [|l ls IH]; intros w; cbn [print_all map].
  - unfold ret, logs. destruct w; simpl. now rewrite app_nil_r.
  - unfold bind, emit. rewrite IH. destruct w; unfold logs, log; simpl.
    now rewrite <- app_assoc.
Qed.

(** One chunk read and written on: the part of the trace it leaves. *)
Lemma relayed_chunk s data ls :
  data <> [] ->
  relayed (Recv s (read_cap s) data
           :: map Print ls ++ [Sendall (sock_dst s) (modify_xml data)]).
Proof.
  intros Hdata s0.
  assert (Hr : forall l, received_from s0 (map Print l ++
                           [Sendall (sock_dst s) (modify_xml data)]) = [])
    by (induction l; [reflexivity | assumption]).
  assert (Hs : forall l, sent_to (sock_dst s0) (map Print l ++
                           [Sendall (sock_dst s) (modify_xml data)])
                         = if sock_is (sock_dst s) (sock_dst s0)
                           then [modify_xml data] else [])
    by (induction l; [reflexivity | assumption]).
  cbn [received_from sent_to]. rewrite Hr, Hs.
  destruct data; [congruence|].
  destruct s, s0; reflexivity.
Qed.

Lemma relayed_eof s : relayed [Recv s (read_cap s) []].
Proof. intros s0. simpl. now rewrite andb_false_r. Qed.

(** A turn of the loop on a readable socket that is at end-of-stream:
    the turn ends there, with [exit_flag] set. *)
Lemma for_readable_eof s rest q' w :
  recv_from (read_cap s) (rx (conn_of s w)) = ([], q') ->
  for_readable (s :: rest) w =
    Ok true (logs [Recv s (read_cap s) []] (set_rx s q' w)).
Proof.
  intros Hrecv. cbn [for_readable].
  replace (if sock_is s client_socket then MAX_DATA_IMG else MAX_DATA_XML)
    with (read_cap s) by (now destruct s).
  assert (Hread : socket_read s (read_cap s) w =
                  Ok [] (logs [Recv s (read_cap s) []] (set_rx s q' w))).
  { unfold socket_read, stop_event_wait, bind, ret.
    destruct (sock_recv_eq s (read_cap s) w) as (d & q & E & ->).
    rewrite Hrecv in E. now injection E as <- <-. }
  now rewrite (bind_Ok _ _ _ _ _ Hread).
Qed.

(** A whole turn of the loop: it returns, having written on each chunk
    it read; the script and the stop event are as they were; and if it
    sets [exit_flag] its last step was a read of the empty string. *)
Lemma for_readable_turn readable :
  forall w, exists exit_now w',
    for_readable readable w = Ok exit_now w' /\
    relays w w' /\
    env w' = env w /\
    stop_event w' = stop_event w /\
    (exit_now = true -> ends_with_eof (trace w')).
Proof.
  induction readable as [|s rest IH]; intros w.
  - exists false, w. repeat split; [apply relays_refl | discriminate].
  - destruct (recv_from (read_cap s) (rx (conn_of s w))) as [data q'] eqn:E.
    destruct data as [|x data].
    + rewrite (for_readable_eof s rest q' w E).
      eexists _, _. split; [reflexivity|]. split; [|split; [|split]].
      * exists [Recv s (read_cap s) []].
        split; [now destruct s, w | apply relayed_eof].
      * now destruct s, w.
      * now destruct s, w.
      * intros _. exists (trace w), s. now destruct s, w.
    + rewrite (for_readable_read s rest (x :: data) q' w E) by discriminate.
      unfold bind at 1. rewrite print_all_eq.
      unfold bind at 1, socket_write, emit.
      set (w1 := log _ _).
      destruct (IH w1) as (b1 & w' & -> & Hrel & Henv & Hstop & Heof).
      exists b1, w'. split; [reflexivity|]. split; [|split; [|split]].
      * apply relays_trans with w1; [|exact Hrel].
        exists (Recv s (read_cap s) (x :: data)
                :: map Print (modify_xml_log (x :: data))
                   ++ [Sendall (sock_dst s) (modify_xml (x :: data))]).
        split; [|now apply relayed_chunk].
        subst w1. destruct s, w; unfold logs, log, set_rx, set_conn; simpl;
          now rewrite <- !app_assoc.
      * rewrite Henv. subst w1. now destruct s, w.
      * rewrite Hstop. subst w1. now destruct s, w.
      * exact Heof.
Qed.

Lemma relays_for_readable readable : preserves relays (for_readable readable).
Proof.
  intros w. destruct (for_readable_turn readable w) as (b1 & w' & -> & H & _).
  exact H.
Qed.

Lemma relays_forwarding fuel :
  forall exit_flag, preserves relays (forwarding fuel exit_flag).
Proof.
  induction fuel as [|fuel IH]; intros exit_flag; [intros w; exact I|].
  cbn [forwarding].
  apply (preserves_bind relays relays_trans).
  { intros w. apply relays_refl. }
  intros stop. destruct (negb stop && negb exit_flag);
    [|apply preserves_ret, relays_refl].
  apply (preserves_bind relays relays_trans).
  { intros w. unfold wait_readable.
    destruct (socket_wait_readable _ _ _) as [[r stop'] env'].
    destruct r; simpl; exists []; simpl;
      (split; [now rewrite app_nil_r | apply relayed_nil]). }
  intros v. apply (preserves_bind relays relays_trans).
  { apply preserves_iter, relays_refl. }
  intros socks. apply (preserves_bind relays relays_trans).
  { apply relays_for_readable. }
  intros exit_now. apply IH.
Qed.

(** X7. However the forwarding loop ends, in each direction the chunks
    it has written are [modify_xml] of the chunks it has read, one for
    one and in the order of the reads: nothing read is held back,
    written twice, reordered or sent to the wrong socket. *)
Theorem forwarding_relays_in_order (w : world) :
  exists w' tr,
    final_world (exchange w) = Some w' /\
    trace w' = trace w ++ tr /\
    sent_to printer_socket tr =
      map modify_xml (received_from client_socket tr) /\
    sent_to client_socket tr =
      map modify_xml (received_from printer_socket tr).
Proof.
  pose proof (relays_forwarding (S (length (env w))) false w) as H.
  pose proof (exchange_within_bounds w) as B.
  unfold exchange in *.
  destruct (forwarding (S (length (env w))) false w) as [a w'|e w'|w'|];
    [| | |congruence];
    simpl in H; destruct H as (tr & Htr & Hrel);
    exists w', tr; (split; [reflexivity|]); (split; [exact Htr|]);
    (split; [exact (Hrel client_socket) | exact (Hrel printer_socket)]).
Qed.

(* ------------------------------------------------------------------ *)
(** *** How the loop ends *)

Lemma forwarding_outcome fuel :
  forall exit_flag w,
    (length (env w) < fuel)%nat ->
    (exit_flag = true -> ends_with_eof (trace w)) ->
    match forwarding fuel exit_flag w with
    | Ok _ w' => stop_event w' = true \/ ends_with_eof (trace w')
    | Raised e w' => e = TypeError /\ stop_event w' = true
    | Hang w' => stop_event w' = false /\ env w' = []
    | OutOfFuel => False
    end.
Proof.
  induction fuel as [|fuel IH]; intros exit_flag w Hlen Hflag; [lia|].
  cbn [forwarding]. unfold bind at 1, is_set.
  destruct (stop_event w) eqn:Hs; [now left|].
  destruct exit_flag; [right; now apply Hflag|].
  cbn [negb andb]. unfold bind at 1, wait_readable. rewrite Hs.
  destruct (socket_wait_readable [client_socket; printer_socket] false (env w))
    as [[r stop'] env'] eqn:E.
  apply socket_wait_readable_spec in E as [_ Hr].
  destruct r as [[readable|]|]; [|now split|exact Hr].
  destruct Hr as (_ & _ & Hshort).
  unfold bind at 1, iter, ret. unfold bind at 1.
  set (w1 := {| stop_event := stop'; env := env'; client := client w;
                printer := printer w; trace := trace w |}).
  destruct (for_readable_turn readable w1)
    as (exit_now & w2 & -> & _ & Henv & _ & Heof).
  apply IH; [rewrite Henv; simpl; lia | exact Heof].
Qed.

(** X8. The forwarding loop ends in one of three ways.  It returns,
    and then the stop event is set or its last step was a read that
    returned the empty string (end-of-stream).  It raises, and then the
    exception is [TypeError] and the stop event is set.  Or it waits for
    ever, with the stop event clear and the script at its end. *)
Theorem forwarding_ends (w : world) :
  match exchange w with
  | Ok _ w' => stop_event w' = true \/ ends_with_eof (trace w')
  | Raised e w' => e = TypeError /\ stop_event w' = true
  | Hang w' => stop_event w' = false /\ env w' = []
  | OutOfFuel => False
  end.
Proof.
  apply forwarding_outcome; [lia | discriminate].
Qed.

(* ------------------------------------------------------------------ *)
(** *** The sockets at the end of the thread *)

Lemma with_socket_Hang {A} s (body : M world A) w w' :
  body w = Hang w' -> with_socket s body w = Hang w'.
Proof. unfold with_socket, finally. now intros ->. Qed.

(** X9. Whenever [client_thread] ends, by returning or by raising, both
    sockets are closed. *)
Theorem client_thread_closes_sockets (w : world) :
  match client_thread w with
  | Ok _ w' | Raised _ w' =>
      closed (client w') = true /\ closed (printer w') = true
  | Hang _ => True
  | OutOfFuel => False
  end.
Proof.
  unfold client_thread.
  set (body := emit Connect ;;; exchange ;;; socket_close printer_socket).
  assert (B : body w <> OutOfFuel).
  { apply within_bounds_bind; [apply within_bounds_emit|]. intros _.
    apply within_bounds_bind; [apply exchange_within_bounds|]. intros _.
    apply within_bounds_socket_close. }
  destruct (body w) as [[] w1|e w1|w1|] eqn:E; [| | |congruence].
  - destruct (socket_close_spec client_socket (closed_by printer_socket w1))
      as (dc & _ & _ & Hc).
    assert (H : (with_socket printer_socket body ;;;
                 socket_close client_socket) w
                = Ok tt (closed_down client_socket dc
                           (closed_by printer_socket w1))).
    { now rewrite (bind_Ok _ _ _ _ _ (with_socket_Ok _ _ _ _ _ E)). }
    rewrite (with_socket_Ok _ _ _ _ _ H). destruct w1. now split.
  - assert (H : (with_socket printer_socket body ;;;
                 socket_close client_socket) w
                = Raised e (closed_by printer_socket w1)).
    { apply bind_Raised. now apply with_socket_Raised. }
    rewrite (with_socket_Raised _ _ _ _ _ H). destruct w1. now split.
  - assert (H : (with_socket printer_socket body ;;;
                 socket_close client_socket) w = Hang w1).
    { unfold bind. now rewrite (with_socket_Hang _ _ _ _ E). }
    now rewrite (with_socket_Hang _ _ _ _ H).
Qed.

(* ------------------------------------------------------------------ *)
(** *** End-of-stream within a turn *)

(** X10. When the socket a turn of the loop reads first is at
    end-of-stream, the turn ends with that one read and [exit_flag] set:
    the sockets that [select] reported after it are not read, whatever
    they hold, and nothing is written. *)
Theorem for_readable_stops_at_eof (s : sock) (rest : list sock) (w : world) :
  rx (conn_of s w) = [] ->
  for_readable (s :: rest) w = Ok true (logs [Recv s (read_cap s) []] w).
Proof.
  intros Hrx.
  rewrite (for_readable_eof s rest [] w) by (now rewrite Hrx).
  f_equal. f_equal. destruct s, w; simpl in *; destruct client0, printer0;
    simpl in *; now subst.
Qed.

Lemma for_readable_stops_at_eof_witness :
  let w := {| stop_event := false; env := [];
              client := fresh []; printer := fresh [b "ready"];
              trace := [] |} in
  rx (conn_of client_socket w) = [] /\
  for_readable [client_socket; printer_socket] w =
    Ok true (logs [Recv client_socket (read_cap client_socket) []] w).
Proof.
  intros w. split; [reflexivity|].
  apply (for_readable_stops_at_eof client_socket [printer_socket] w).
  reflexivity.
Defined.

(* ------------------------------------------------------------------ *)
(** *** Cancellation at the head of the loop *)

(** X11. A session that finds the stop event set when it reaches its
    loop reads nothing and writes nothing: it goes straight to the
    orderly close of the printer socket and then of the client socket,
    and returns. *)
Theorem cancelled_before_loop (w : world) :
  stop_event w = true ->
  exists drained_p drained_c w',
    client_thread w = Ok tt w' /\
    trace w' = trace w ++ Connect
                 :: orderly_close printer_socket drained_p
                 ++ [Close printer_socket]
                 ++ orderly_close client_socket drained_c
                 ++ [Close client_socket] /\
    concat drained_p = concat (rx (printer w)) /\
    concat drained_c = concat (rx (client w)) /\
    env w' = env w.
Proof.
  intros Hs.
  assert (H1 : exchange (log Connect w) = Ok tt (log Connect w)).
  { unfold exchange. cbn [forwarding]. unfold bind, is_set.
    cbn [log stop_event]. now rewrite Hs. }
  destruct (socket_close_spec printer_socket (log Connect w))
    as (dp & _ & Hdp & Hp).
  set (wp := closed_by printer_socket
                       (closed_down printer_socket dp (log Connect w))).
  destruct (socket_close_spec client_socket wp) as (dc & _ & Hdc & Hc).
  exists dp, dc, (closed_by client_socket (closed_down client_socket dc wp)).
  split; [|split; [|split; [|split]]].
  - unfold client_thread. apply with_socket_Ok.
    assert (Hin : with_socket printer_socket
                    (emit Connect ;;; exchange ;;; socket_close printer_socket) w
                  = Ok tt wp).
    { apply with_socket_Ok.
      change ((exchange ;;; socket_close printer_socket) (log Connect w)
              = Ok tt (closed_down printer_socket dp (log Connect w))).
      now rewrite (bind_Ok _ _ _ _ _ H1). }
    now rewrite (bind_Ok _ _ _ _ _ Hin).
  - subst wp. destruct w.
    unfold closed_by, closed_down, logs, log, orderly_close; simpl.
    repeat (rewrite <- !app_assoc; simpl). reflexivity.
  - rewrite Hdp. now destruct w.
  - rewrite Hdc. subst wp. now destruct w.
  - subst wp. now destruct w.
Qed.

Lemma cancelled_before_loop_witness :
  let w := {| stop_event := true; env := [quiet (fun _ => true)];
              client := fresh [b "<print>"]; printer := fresh [];
              trace := [] |} in
  stop_event w = true /\
  exists drained_p drained_c w',
    client_thread w = Ok tt w' /\
    trace w' = trace w ++ Connect
                 :: orderly_close printer_socket drained_p
                 ++ [Close printer_socket]
                 ++ orderly_close client_socket drained_c
                 ++ [Close client_socket] /\
    concat drained_p = concat (rx (printer w)) /\
    concat drained_c = concat (rx (client w)) /\
    env w' = env w.
Proof.
  intros w. split; [reflexivity|].
  apply (cancelled_before_loop w). reflexivity.
Defined.

(* ------------------------------------------------------------------ *)
(** *** socket_close on its own *)

Lemma wait_for_ack_reads fuel s :
  forall w,
    (pending s w < fuel)%nat ->
    exists drained,
      Forall (fun data => data <> [] /\ len data <= 1024) drained /\
      concat drained = concat (rx (conn_of s w)) /\
      wait_for_ack fuel s w =
        Ok tt (logs (map (Recv s 1024) drained ++ [Recv s 1024 []])
                    (set_rx s [] w)).
Proof.
  induction fuel as [|fuel IH]; intros w Hlen; [lia|].
  cbn [wait_for_ack]. unfold bind.
  destruct (sock_recv_eq s 1024 w) as (data & q' & E & ->).
  apply recv_from_spec in E as (Hcat & Hsize & Hnil); [|lia].
  destruct data as [|x data]; cbn [is_empty].
  - exists []. rewrite (Hnil eq_refl) in *. simpl in Hcat.
    split; [constructor|]. split; [exact Hcat | reflexivity].
  - destruct (IH (logs [Recv s 1024 (x :: data)] (set_rx s q' w)))
      as (drained & Hne & Hd & ->).
    + unfold pending in *. rewrite rx_logs_set_rx. rewrite <- Hcat in Hlen.
      simpl in Hlen. rewrite length_app in Hlen. lia.
    + exists ((x :: data) :: drained). split; [|split].
      * constructor; [split; [discriminate | exact Hsize] | exact Hne].
      * rewrite rx_logs_set_rx in Hd. simpl. rewrite Hd. exact Hcat.
      * f_equal. destruct s, w; unfold logs, set_rx; simpl;
          now rewrite <- app_assoc.
Qed.

(** X12. When [socket_close] returns, it has shut the write half of
    its socket, read all that the peer delivered up to end-of-stream in
    chunks of at most 1024 bytes, none of them empty, which it has
    dropped, read the empty string, and closed the socket; it has written
    nothing and has touched neither the other socket of the session, nor
    the stop event, nor the script. *)
Theorem socket_close_drains (s : sock) (w w' : world) :
  socket_close s w = Ok tt w' ->
  exists drained,
    trace w' = trace w ++ orderly_close s drained /\
    Forall (fun data => data <> [] /\ len data <= 1024) drained /\
    concat drained = concat (rx (conn_of s w)) /\
    conn_of s w' = released /\
    conn_of (sock_dst s) w' = conn_of (sock_dst s) w /\
    stop_event w' = stop_event w /\
    env w' = env w.
Proof.
  intros Hret.
  pose (c := conn_of s w).
  pose (w1 := log (Shutdown_WR s)
                  (set_conn s {| rx := rx c; shut_wr := true;
                                 closed := closed c |} w)).
  assert (H1 : sock_shutdown_wr s w = Ok tt w1) by reflexivity.
  destruct (wait_for_ack_reads (S (pending s w1)) s w1)
    as (drained & Hsz & Hd & Hw); [lia|].
  unfold socket_close in Hret. rewrite (bind_Ok _ _ _ _ _ H1) in Hret.
  rewrite (bind_Ok (fun w0 => wait_for_ack (S (pending s w0)) s w0)
             _ w1 tt _ Hw) in Hret.
  injection Hret as <-.
  exists drained. split; [|split; [exact Hsz|split]].
  - subst w1 c. unfold orderly_close.
    destruct s, w; unfold sock_close, logs, log, set_rx, set_conn; simpl;
      repeat (rewrite <- !app_assoc; simpl); reflexivity.
  - rewrite Hd. subst w1 c. now destruct s.
  - subst w1 c. destruct s, w; repeat split.
Qed.

Lemma socket_close_drains_witness :
  exists w',
    socket_close printer_socket job_then_hangup = Ok tt w' /\
    exists drained,
      trace w' = trace job_then_hangup
                 ++ orderly_close printer_socket drained /\
      Forall (fun data => data <> [] /\ len data <= 1024) drained /\
      concat drained = concat (rx (conn_of printer_socket job_then_hangup)) /\
      conn_of printer_socket w' = released /\
      conn_of (sock_dst printer_socket) w'
        = conn_of (sock_dst printer_socket) job_then_hangup /\
      stop_event w' = stop_event job_then_hangup /\
      env w' = env job_then_hangup.
Proof.
  eexists. split; [vm_compute; reflexivity|].
  apply (socket_close_drains printer_socket job_then_hangup).
  vm_compute. reflexivity.
Defined.

(* ------------------------------------------------------------------ *)
(** *** The two departures, on any input *)

(** X13. Whatever the session holds, if the stop event gets set during
    a poll in which neither socket is readable, after polls in which none
    was either, [client_thread] raises [TypeError]: it has called
    [connect] and nothing else, and its [with] blocks close both sockets
    without shutting or draining them. *)
Theorem cancelled_while_waiting_raises
        (w : world) (idle : list (poll sock)) (p : poll sock)
        (later : list (poll sock)) :
  stop_event w = false ->
  env w = idle ++ p :: later ->
  Forall (idle_poll [client_socket; printer_socket]) idle ->
  sigterm p = true ->
  filter (ready p) [client_socket; printer_socket] = [] ->
  exists w',
    client_thread w = Raised TypeError w' /\
    trace w' = trace w ++ [Connect; Close printer_socket; Close client_socket] /\
    rx (client w') = rx (client w) /\
    rx (printer w') = rx (printer w) /\
    shut_wr (client w') = shut_wr (client w) /\
    shut_wr (printer w') = shut_wr (printer w) /\
    stop_event w' = true.
Proof.
  intros Hstop Henv Hidle Hsig Hready.
  assert (Hq : forall p0 : poll sock,
             filter (ready p0) [client_socket; printer_socket] = [] ->
             ready p0 client_socket = false /\
             ready p0 printer_socket = false).
  { intros p0. simpl.
    destruct (ready p0 client_socket), (ready p0 printer_socket);
      try discriminate. now split. }
  destruct (Hq p Hready) as [Hc Hp].
  eexists. split.
  - apply (cancelled_in_multiplexer_raises w idle p later); auto.
    eapply Forall_impl; [|exact Hidle].
    intros p0 [H0 H1]. destruct (Hq p0 H0). auto.
  - destruct w. unfold closed_by, log; simpl.
    rewrite <- !app_assoc. repeat split.
Qed.

Lemma cancelled_while_waiting_raises_witness :
  stop_event cancelled_while_idle = false /\
  env cancelled_while_idle = [quiet (fun _ => false)] ++ interrupted :: [] /\
  Forall (idle_poll [client_socket; printer_socket]) [quiet (fun _ => false)] /\
  sigterm interrupted = true /\
  filter (ready interrupted) [client_socket; printer_socket] = [] /\
  exists w',
    client_thread cancelled_while_idle = Raised TypeError w' /\
    trace w' = trace cancelled_while_idle
               ++ [Connect; Close printer_socket; Close client_socket] /\
    rx (client w') = rx (client cancelled_while_idle) /\
    rx (printer w') = rx (printer cancelled_while_idle) /\
    shut_wr (client w') = shut_wr (client cancelled_while_idle) /\
    shut_wr (printer w') = shut_wr (printer cancelled_while_idle) /\
    stop_event w' = true.
Proof.
  assert (Hidle : Forall (idle_poll [client_socket; printer_socket])
                         [quiet (fun _ => false)]).
  { constructor; [now split | constructor]. }
  split; [reflexivity|]. split; [reflexivity|]. split; [exact Hidle|].
  split; [reflexivity|]. split; [reflexivity|].
  apply (cancelled_while_waiting_raises
           cancelled_while_idle [quiet (fun _ => false)] interrupted []);
    auto.
Defined.

(** X14. Every chunk the loop reads from the printer that contains
    [</print>] is written to the client with the directive line
    inserted: a read from the printer is capped at [MAX_DATA_XML], so
    the chunk is always taken for a descriptor. *)
Theorem printer_chunks_are_rewritten
        (w : world) (data : bytes) (q : list bytes) (pre post : bytes) :
  rx (printer w) = data :: q ->
  len data <= MAX_DATA_XML ->
  first_occurrence data END_TAG pre post ->
  for_readable [printer_socket] w =
    Ok false
       (logs [Recv printer_socket MAX_DATA_XML data;
              Print (XML_content data);
              Print (XML_modified (pre ++ NEW_LINE ++ END_TAG ++ post));
              Sendall client_socket (pre ++ NEW_LINE ++ END_TAG ++ post)]
             (set_rx printer_socket q w)) /\
  pre ++ NEW_LINE ++ END_TAG ++ post <> data.
Proof.
  intros Hrx Hlen F. split.
  - destruct data as [|x seg].
    + exfalso. destruct F as [E _]. destruct pre; discriminate.
    + now apply printer_chunk_rewritten.
  - intros E. apply (f_equal len) in E. destruct F as [-> _].
    rewrite !len_app in E. change (len NEW_LINE) with 24 in E. lia.
Qed.

Lemma printer_chunks_are_rewritten_witness :
  rx (printer printer_reply) = b "<status>idle</status></print>" :: [] /\
  len (b "<status>idle</status></print>") <= MAX_DATA_XML /\
  first_occurrence (b "<status>idle</status></print>") END_TAG
                   (b "<status>idle</status>") [] /\
  for_readable [printer_socket] printer_reply =
    Ok false
       (logs [Recv printer_socket MAX_DATA_XML
                   (b "<status>idle</status></print>");
              Print (XML_content (b "<status>idle</status></print>"));
              Print (XML_modified
                       (b "<status>idle</status>" ++ NEW_LINE ++ END_TAG ++ []));
              Sendall client_socket
                      (b "<status>idle</status>" ++ NEW_LINE ++ END_TAG ++ [])]
             (set_rx printer_socket [] printer_reply)) /\
  b "<status>idle</status>" ++ NEW_LINE ++ END_TAG ++ []
    <> b "<status>idle</status></print>".
Proof.
  assert (F : first_occurrence (b "<status>idle</status></print>") END_TAG
                               (b "<status>idle</status>") [])
    by (apply first_occurrence_of_find; reflexivity).
  split; [reflexivity|]. split; [discriminate|]. split; [exact F|].
  apply (printer_chunks_are_rewritten
           printer_reply (b "<status>idle</status></print>") []
           (b "<status>idle</status>") []);
    [reflexivity | discriminate | exact F].
Defined.

End SessionLaws.

(* ================================================================== *)
(** ** The listener on any script *)

Module ListenerLaws.
Import Listener ListenerSpec ListenerTrace ListenerProps.

Lemma accepts_app tr1 tr2 : accepts (tr1 ++ tr2) = (accepts tr1 + accepts tr2)%nat.
Proof.
  induction tr1 as [|e tr1 IH]; [reflexivity|].
  destruct e; simpl; now rewrite ?IH.
Qed.

Lemma joined_of_app tr1 tr2 :
  joined_of (tr1 ++ tr2) = joined_of tr1 ++ joined_of tr2.
Proof.
  induction tr1 as [|e tr1 IH]; [reflexivity|].
  destruct e; simpl; now rewrite ?IH.
Qed.

Lemma joined_of_joins l : joined_of (map Join l) = l.
Proof. induction l; simpl; congruence. Qed.

Lemma accepts_joins l : accepts (map Join l) = 0%nat.
Proof. induction l; simpl; congruence. Qed.

(** The list after a connection has been accepted: the new thread is
    added, the threads that have ended are dropped. *)
Lemma registry_after_turn l n (alive : thread -> bool) :
  NoDup l ->
  Forall (fun t => (t < n)%nat) l ->
  NoDup (filter alive (l ++ [n])) /\
  Forall (fun t => (t < S n)%nat) (filter alive (l ++ [n])).
Proof.
  intros Hnd Hlt. split.
  - apply NoDup_filter. apply NoDup_app; [exact Hnd | repeat constructor; auto |].
    intros t Hin [<-|[]]. rewrite Forall_forall in Hlt.
    specialize (Hlt _ Hin). lia.
  - rewrite Forall_forall in *. intros t Ht.
    apply filter_In in Ht as [Ht _]. apply in_app_iff in Ht as [Ht|[<-|[]]].
    + specialize (Hlt _ Ht). lia.
    + lia.
Qed.

Local Ltac fields :=
  unfold log; cbn [stop_event env finishing started terminated trace].

Lemma accept_loop_registry fuel :
  forall l w,
    registry_ok l w ->
    match accept_loop fuel l w with
    | Ok l' w' => registry_ok l' w'
    | _ => True
    end.
Proof.
  induction fuel as [|fuel IH]; intros l w Hreg; [exact I|].
  destruct w as [stop polls ends_left n ended_so_far tr0].
  destruct Hreg as (Hnd & Hlt & Hacc & Hjoin). cbn [started trace] in *.
  cbn [accept_loop]. unfold bind at 1, is_set. fields.
  destruct stop.
  - unfold ret. repeat split; auto; fields.
    + rewrite accepts_app, Hacc. simpl. lia.
    + now rewrite joined_of_app, Hjoin.
  - unfold bind at 1, wait_readable. fields.
    destruct (socket_wait_readable [listener] false polls)
      as [[r stop'] env'].
    destruct r as [v|]; [|exact I].
    unfold bind at 1, is_set. fields.
    destruct stop'.
    + unfold ret. repeat split; auto; fields.
      * rewrite !accepts_app, Hacc. simpl. lia.
      * now rewrite !joined_of_app, Hjoin.
    + unfold bind at 1, emit. unfold bind at 1, start_thread.
      unfold bind at 1, sessions_progress. fields.
      destruct ends_left as [|ended later]; fields;
        unfold bind at 1; rewrite alive_only_spec;
        apply IH;
        (split; [exact (proj1 (registry_after_turn l n _ Hnd Hlt))|]);
        (split; [exact (proj2 (registry_after_turn l n _ Hnd Hlt))|]);
        fields; rewrite !accepts_app, !joined_of_app, Hacc, Hjoin; simpl;
        (split; [lia | reflexivity]).
Qed.

(** X15. When the listener returns, it has started one client thread
    for each connection it accepted, and it has joined no thread twice
    and none that it did not start. *)
Theorem listener_threads
        (stop : bool) (polls : list (poll sock)) (ends : list (list thread)) :
  match listener_thread (initial stop polls ends) with
  | Ok _ w' =>
      accepts (trace w') = started w' /\
      NoDup (joined_of (trace w')) /\
      Forall (fun t => (t < started w')%nat) (joined_of (trace w'))
  | _ => True
  end.
Proof.
  unfold listener_thread, with_listener, finally.
  change ((emit Listen ;;; serve []) (initial stop polls ends))
    with (serve [] (log Listen (initial stop polls ends))).
  unfold serve, bind at 1.
  set (w0 := log Listen (initial stop polls ends)).
  assert (Hreg : registry_ok [] w0).
  { repeat split; try constructor. }
  pose proof (accept_loop_registry (S (length (env w0))) [] w0 Hreg) as H.
  destruct (accept_loop (S (length (env w0))) [] w0) as [l w1|e w1|w1|];
    try exact I.
  destruct H as (Hnd & Hlt & Hacc & Hjoin).
  unfold bind at 1.
  destruct (join_all_spec l w1) as (w2 & -> & Htr & _ & Hst & _).
  unfold emit, bind, ret. fields. rewrite Htr, Hst.
  rewrite !accepts_app, !joined_of_app, Hacc, Hjoin.
  rewrite accepts_joins, joined_of_joins. simpl.
  rewrite !app_nil_r. repeat split; [lia | exact Hnd | exact Hlt].
Qed.

End ListenerLaws.
